(** * Veryfy_Trans: the translation-proofing pipeline

    A shallow embedding of the three scripts that make up the pipeline

    - [log_parser.py]      ([parse_log]),
    - [check_languages.py] ([load_replacements], [check_languages]),
    - [fix_script.py]      ([create_replacement_map], [main]),

    together with the fragments of the Python library they call
    ([str.strip], [str.replace], [in], [str.split], file iteration, the two
    regular expressions), and the properties of the pipeline stated over
    that embedding. *)

From stdpp Require Import gmap strings list.
From Stdlib Require Import ZArith Lia.

Local Open Scope Z_scope.

(** * Text

    A Python [str] is a sequence of Unicode code points. *)

Module Text.

Abbreviation char := Z.
Abbreviation text := (list Z).

Definition newline : char := 10.
Definition space : char := 32.
Definition lparen : char := 40.
Definition rparen : char := 41.

(** An ASCII literal as a [text]. *)
Definition lit (s : string) : text :=
  map (λ a, Z.of_nat (Ascii.nat_of_ascii a)) (String.list_ascii_of_string s).

Definition between (lo hi c : char) : bool := (lo <=? c) && (c <=? hi).

(** [str.isspace] on one character: the code points CPython classifies as
    whitespace (bidirectional class WS, B or S, or category Zs). *)
Definition isspace (c : char) : bool :=
  between 9 13 c || between 28 32 c || (c =? 133) || (c =? 160)
  || (c =? 5760) || between 8192 8202 c || (c =? 8232) || (c =? 8233)
  || (c =? 8239) || (c =? 8287) || (c =? 12288).

Fixpoint dropwhile (p : char → bool) (s : text) : text :=
  match s with
  | [] => []
  | c :: s' => if p c then dropwhile p s' else s
  end.

Definition lstrip (s : text) : text := dropwhile isspace s.
Definition rstrip (s : text) : text := reverse (dropwhile isspace (reverse s)).

(** [s.strip()] *)
Definition strip (s : text) : text := lstrip (rstrip s).

(** [s.startswith(p)] *)
Fixpoint startswith (p s : text) : bool :=
  match p, s with
  | [], _ => true
  | _ :: _, [] => false
  | a :: p', b :: s' => (a =? b) && startswith p' s'
  end.

(** [old in s]: [old] occurs in [s] as a contiguous substring. *)
Fixpoint contains (old s : text) : bool :=
  startswith old s ||
  match s with
  | [] => false
  | _ :: s' => contains old s'
  end.

(** [s.replace(old, new)] for a non-empty [old]: scan left to right; at an
    occurrence emit [new] and jump over it ([skip] counts the characters of
    the occurrence still to be jumped over), otherwise copy one character. *)
Fixpoint replace_scan (old new : text) (skip : nat) (s : text) : text :=
  match s with
  | [] => []
  | c :: s' =>
      match skip with
      | S k => replace_scan old new k s'
      | O =>
          if startswith old s
          then new ++ replace_scan old new (Nat.pred (length old)) s'
          else c :: replace_scan old new O s'
      end
  end.

(** [s.replace(old, new)].  With an empty [old] Python inserts [new] before
    every character and at the end. *)
Definition replace (old new s : text) : text :=
  match old with
  | [] => new ++ flat_map (λ c, c :: new) s
  | _ :: _ => replace_scan old new O s
  end.

(** [s.split('\n')] *)
Fixpoint split_lines (s : text) : list text :=
  match s with
  | [] => [[]]
  | c :: s' =>
      if c =? newline then [] :: split_lines s'
      else match split_lines s' with
           | [] => [[c]]
           | l :: ls => (c :: l) :: ls
           end
  end.

(** [for line in f]: the lines of a text file, each with its terminating
    newline; a last line without a newline is yielded as it is, and an
    empty file has no lines. *)
Fixpoint iter_lines (s : text) : list text :=
  match s with
  | [] => []
  | c :: s' =>
      if c =? newline then [c] :: iter_lines s'
      else match iter_lines s' with
           | [] => [[c]]
           | l :: ls => (c :: l) :: ls
           end
  end.

End Text.
Export Text.

(** * The two regular expressions of the detector *)

Module Regex.

(** [`.*?\)`] matches at the start of [s]: [.] takes any character but a
    newline, and as few of them as possible, up to the first [)]. *)
Fixpoint closes (s : text) : bool :=
  match s with
  | [] => false
  | c :: s' => (c =? rparen) || (negb (c =? newline) && closes s')
  end.

(** The scanner behind [re.sub(r'\(.*?\)', '', s)].  Outside a match a [(]
    that [closes] starts one and is dropped, any other character is copied;
    inside a match everything is dropped up to and including the first [)]. *)
Fixpoint sub_parens_scan (inside : bool) (s : text) : text :=
  match s with
  | [] => []
  | c :: s' =>
      if inside then sub_parens_scan (negb (c =? rparen)) s'
      else if (c =? lparen) && closes s' then sub_parens_scan true s'
      else c :: sub_parens_scan false s'
  end.

(** [re.sub(r'\(.*?\)', '', s)] *)
Definition sub_parens (s : text) : text := sub_parens_scan false s.

(** [japanese_pattern], [[\u3040-\u309F\u30A0-\u30FF]+]: a pattern that is a
    character class repeated is kept as the test of its class. *)
Definition japanese_pattern (c : char) : bool :=
  between 0x3040 0x309F c || between 0x30A0 0x30FF c.

(** [chinese_pattern], [[\u4E00-\u9FFF]+] *)
Definition chinese_pattern (c : char) : bool := between 0x4E00 0x9FFF c.

Fixpoint takewhile (p : char → bool) (s : text) : text :=
  match s with
  | [] => []
  | c :: s' => if p c then c :: takewhile p s' else []
  end.

(** [pattern.search(s)] for such a pattern: the leftmost, longest run of
    characters of the class, or [None]. *)
Fixpoint search (pattern : char → bool) (s : text) : option text :=
  match s with
  | [] => None
  | c :: s' =>
      if pattern c then Some (c :: takewhile pattern s') else search pattern s'
  end.

End Regex.
Export Regex.

(** * Dictionaries

    A Python [dict] whose keys and values are strings.  Iteration follows
    insertion order, and assigning to a key that is present keeps its place
    and replaces its value. *)

Module Dict.

Abbreviation dict := (list (text * text)).

(** [d[k] = v] *)
Fixpoint dict_set (k v : text) (d : dict) : dict :=
  match d with
  | [] => [(k, v)]
  | (k', v') :: d' =>
      if decide (k' = k) then (k', v) :: d' else (k', v') :: dict_set k v d'
  end.

(** [d.get(k)] *)
Fixpoint dict_get (d : dict) (k : text) : option text :=
  match d with
  | [] => None
  | (k', v') :: d' => if decide (k' = k) then Some v' else dict_get d' k
  end.

(** [{k: v for k, v in pairs}] *)
Definition dict_of_pairs (pairs : list (text * text)) : dict :=
  fold_left (λ d kv, dict_set kv.1 kv.2 d) pairs [].

Definition keys (d : dict) : list text := d.*1.

End Dict.
Export Dict.

(** * The environment of the scripts

    The scripts talk to the file system and to the logging module.  Files
    hold text: the content of a file is the [str] that reading it in text
    mode yields and that writing it stores; the encoding and the translation
    of line endings of the text layer are not modelled.  The diagnostics sent
    to [logging] are kept as a journal of events, apart from the files: the
    console and the file [fix_script.log] that the handlers of [main] feed
    are not part of the store. *)

Module World.

(** A path that exists either holds text, or cannot be read as text
    (a directory, no permission, bytes that are not UTF-8).  A path that is
    not in the store is one that [os.path.exists] denies and that [open]
    does not find ([FileNotFoundError]).  A text is held as reading the file
    in text mode yields it. *)
Inductive node :=
  | Text (content : text)
  | Opaque.

(** What [replacements.json] holds when [load_replacements] opens it. *)
Inductive json_value :=
  | JString (s : text)
  | JOther.

(** The value [json.load] returns: an object, as a [dict] in the order of
    the file, or something else (a list, a string, a number). *)
Inductive json :=
  | JObject (items : list (text * json_value))
  | JNotObject.

Inductive json_store :=
  | StoreMissing
  | StoreMalformed
  | StoreUnreadable
  | StoreJson (j : json).

(** How a write may go wrong: [open(path, 'w')] fails and the file is not
    touched; or the file is opened, which truncates it, and the error comes
    when [written] characters of the text have reached it.  The environment
    schedules the faults: the [n]-th write of a run meets the [n]-th entry of
    [faults], and goes through if that is [None] or the schedule is over. *)
Inductive write_fault :=
  | OpenFails
  | WriteFails (written : nat).

(** The calls to [logging], one constructor per message. *)
Inductive event :=
  | ParserNotFound (file_path : string)
  | ParserError (file_path : string)
  | ParsingLogs
  | LogsEmptyOrUnparsed
  | ScriptStarted
  | TargetFile (target_file : string)
  | CouldNotCreateMap
  | ReadingTarget (target_file : string)
  | TargetNotFound (target_file : string)
  | StartingReplacement
  | FoundRules (n : nat)
  | NoChangesMade
  | ModificationSuccessful (modified_count : nat)
  | ErrorWriting
  | ScriptFinished
  | CouldNotLoadReplacements
  | StartingCheck (file_path : string)
  | FileNotFound (file_path : string)
  | ContentModified
  | ErrorOccurred
  | NoLanguageFound
  | CheckFinished (log_file : string).

Record world := World {
  files : gmap string node;
  replacements_json : json_store;
  faults : list (option write_fault);
  journal : list event
}.

Inductive exn :=
  | FileNotFoundError
  | JSONDecodeError
  | OtherException.

Inductive result (A : Type) :=
  | Ok (a : A)
  | Raise (e : exn).
Arguments Ok {A} a.
Arguments Raise {A} e.

(** A computation reads and updates the world and returns or raises. *)
Definition io (A : Type) : Type := world → result A * world.

#[global] Instance io_ret : MRet io := λ A a w, (Ok a, w).

#[global] Instance io_bind : MBind io := λ A B f m w,
  match m w with
  | (Ok a, w') => f a w'
  | (Raise e, w') => (Raise e, w')
  end.

Definition raise {A} (e : exn) : io A := λ w, (Raise e, w).

(** [try: body except ...: handler]; the handler declines ([None]) the
    exceptions its [except] clauses do not name, which then propagate. *)
Definition try_except {A} (body : io A) (handler : exn → option (io A)) : io A :=
  λ w, match body w with
       | (Ok a, w') => (Ok a, w')
       | (Raise e, w') =>
           match handler e with
           | Some h => h w'
           | None => (Raise e, w')
           end
       end.

(** The world once [e] has been logged. *)
Definition logged (e : event) (w : world) : world :=
  World (files w) (replacements_json w) (faults w) (journal w ++ [e]).

Definition logged_all (es : list event) (w : world) : world :=
  fold_left (λ w e, logged e w) es w.

(** [logging.info], [logging.warning], [logging.error] *)
Definition log (e : event) : io unit := λ w, (Ok (), logged e w).

(** [os.path.exists(path)] *)
Definition path_exists (path : string) : io bool := λ w,
  (Ok (bool_decide (is_Some (files w !! path))), w).

(** [with open(path, 'r', encoding='utf-8') as f: f.read()] *)
Definition read_file (path : string) : io text := λ w,
  match files w !! path with
  | None => (Raise FileNotFoundError, w)
  | Some Opaque => (Raise OtherException, w)
  | Some (Text content) => (Ok content, w)
  end.

(** [with open(path, 'w', encoding='utf-8') as f: f.write(content)].  The
    store then holds the text as it was written.  Reading in text mode turns
    each carriage return into a newline, so the text is read back as it was
    written when it holds no carriage return; the statements that depend on
    reading back a text with such characters assume there is none. *)
Definition write_file (path : string) (content : text) : io unit := λ w,
  let store f := World f (replacements_json w) (tail (faults w)) (journal w) in
  match head (faults w) with
  | None | Some None => (Ok (), store (<[path := Text content]> (files w)))
  | Some (Some OpenFails) => (Raise OtherException, store (files w))
  | Some (Some (WriteFails written)) =>
      (Raise OtherException, store (<[path := Text (take written content)]> (files w)))
  end.

(** [with open("replacements.json", 'r', encoding='utf-8') as f:
    json.load(f)] *)
Definition load_json : io json := λ w,
  match replacements_json w with
  | StoreMissing => (Raise FileNotFoundError, w)
  | StoreMalformed => (Raise JSONDecodeError, w)
  | StoreUnreadable => (Raise OtherException, w)
  | StoreJson j => (Ok j, w)
  end.

(** A [for] loop whose body updates the loop state [s] and may raise. *)
Fixpoint for_each {A S} (body : S → A → io S) (l : list A) (s : S) : io S :=
  match l with
  | [] => mret s
  | x :: l' => s' ← body s x; for_each body l' s'
  end.

(** Run a script from a world: what it returns, and the world it leaves. *)
Definition run {A} (m : io A) (w : world) : result A * world := m w.

End World.
Export World.

(** * log_parser.py *)

(** Truth value of a [str] or a [list]: non-empty. *)
Definition truthy {A} (l : list A) : bool :=
  match l with
  | [] => false
  | _ :: _ => true
  end.

Definition parse_log (file_path : string) : io (list text) :=
  try_except
    (content ← read_file file_path;
     mret (map strip (List.filter (λ line, truthy (strip line)) (iter_lines content))))
    (λ e, Some match e with
               | FileNotFoundError => log (ParserNotFound file_path);; mret []
               | _ => log (ParserError file_path);; mret []
               end).

(** * fix_script.py *)

Definition create_replacement_map (proof_log_path translated_log_path : string)
  : io (option dict) :=
  log ParsingLogs;;
  original_lines ← parse_log proof_log_path;
  translated_lines ← parse_log translated_log_path;
  if negb (truthy original_lines) || negb (truthy translated_lines)
  then log LogsEmptyOrUnparsed;; mret None
  else mret (Some (dict_of_pairs (zip original_lines translated_lines))).

(** The body of the replacement loop of [main], on the loop state
    [(content, modified_count)]. *)
Definition apply_rule (st : text * nat) (rule : text * text) : text * nat :=
  let '(content, modified_count) := st in
  let '(old, new) := rule in
  if contains old content
  then (replace old new content, S modified_count)
  else (content, modified_count).

(** [for old, new in replacements.items(): ...], from [modified_count = 0]. *)
Definition apply_rules (replacements : dict) (content : text) : text * nat :=
  fold_left apply_rule replacements (content, 0%nat).

(** [main], from the arguments parsed by [argparse], once
    [logging.basicConfig] has installed the handlers that receive the
    journal.  One of them is a [logging.FileHandler] on [fix_script.log],
    opened with mode ['w']: that file is emptied at each run and then holds
    the journal of the run.  It is the sink of the journal and is kept out
    of [files], which holds the other files. *)
Definition main (proof_log translated_log target_file : string) : io unit :=
  log ScriptStarted;;
  log (TargetFile target_file);;
  replacements ← create_replacement_map proof_log translated_log;
  match replacements with
  | None | Some [] => log CouldNotCreateMap
  | Some replacements =>
      opened ← try_except
        (log (ReadingTarget target_file);;
         content ← read_file target_file;
         mret (Some content))
        (λ e, match e with
              | FileNotFoundError =>
                  Some (log (TargetNotFound target_file);; mret None)
              | _ => None
              end);
      match opened with
      | None => mret ()
      | Some original_content =>
          log StartingReplacement;;
          log (FoundRules (length replacements));;
          let '(content, modified_count) := apply_rules replacements original_content in
          (if decide (original_content = content)
           then log NoChangesMade
           else try_except
                  (write_file target_file content;;
                   log (ModificationSuccessful modified_count))
                  (λ _, Some (log ErrorWriting)));;
          log ScriptFinished
      end
  end.

(** * check_languages.py *)

(** [load_replacements()], as [check_languages] calls it: on the default
    path [replacements.json]. *)
Definition load_replacements : io json :=
  try_except load_json
    (λ e, match e with
          | FileNotFoundError | JSONDecodeError =>
              Some (log CouldNotLoadReplacements;; mret (JObject []))
          | OtherException => None
          end).

(** [replacements.items()]: an attribute only a [dict] has. *)
Definition items (replacements : json) : io (list (text * json_value)) :=
  match replacements with
  | JObject its => mret its
  | JNotObject => raise OtherException
  end.

(** [content = content.replace(old, new + ' ')]; [new + ' '] is a type
    error unless [new] is a string. *)
Definition apply_custom (content : text) (rule : text * json_value) : io text :=
  match rule.2 with
  | JString new => mret (replace rule.1 (new ++ [space]) content)
  | JOther => raise OtherException
  end.

(** The test of the scanning loop: a pattern finds a match in the line
    without its parenthesised parts. *)
Definition is_finding (line : text) : bool :=
  let line_to_check := sub_parens line in
  bool_decide (is_Some (search japanese_pattern line_to_check))
  || bool_decide (is_Some (search chinese_pattern line_to_check)).

(** What the scanning loop writes to [log_f], line after line. *)
Definition findings_text (final_lines : list text) : text :=
  flat_map (λ line, if is_finding line then strip line ++ [newline] else [])
           final_lines.

(** The first statements of the [try] block of [check_languages]: the text
    of the document with the custom replacements applied. *)
Definition read_and_replace (file_path : string) : io text :=
  content ← read_file file_path;
  replacements ← load_replacements;
  rules ← items replacements;
  for_each apply_custom rules content.

Definition check_languages (file_path log_file : string) : io unit :=
  log (StartingCheck file_path);;
  present ← path_exists file_path;
  if negb present then log (FileNotFound file_path)
  else
    found_language ← try_except
      (content ← read_and_replace file_path;
       write_file file_path content;;
       log ContentModified;;
       let final_lines := split_lines content in
       write_file log_file (findings_text final_lines);;
       mret (Some (existsb is_finding final_lines)))
      (λ _, Some (log ErrorOccurred;; mret None));
    match found_language with
    | None => mret ()
    | Some false => log NoLanguageFound
    | Some true => log (CheckFinished log_file)
    end.

(** * gui.py *)

(** The [with] block of [save_and_apply_fixes] that writes the corrected
    log, one line per correction; [translated_texts] are the texts that
    [toPlainText()] returns for the edit boxes of [sentence_pairs], in
    order.  The block is outside any [try]: an error in it propagates. *)
Definition save_translated_log (translated_log_file : string)
    (translated_texts : list text) : io unit :=
  write_file translated_log_file
    (flat_map (λ translated_text, strip translated_text ++ [newline])
              translated_texts).

(** * Notions used to state the properties

    What follows is not part of the scripts: these are the notions in which
    the properties are stated. *)

(** [old] occurs in [s] right after the prefix [pre]. *)
Definition occurs_at (old pre s : text) : Prop := ∃ post, s = pre ++ old ++ post.

Definition occurs (old s : text) : Prop := ∃ pre, occurs_at old pre s.

(** The leftmost occurrence of [old] in [s] is the one after [pre]. *)
Definition first_occurs_at (old pre s : text) : Prop :=
  occurs_at old pre s ∧
  ∀ pre', occurs_at old pre' s → (length pre ≤ length pre')%nat.

(** The last pair of [pairs] whose key is [k] has the value [v]. *)
Definition last_pair (pairs : list (text * text)) (k v : text) : Prop :=
  ∃ i, pairs !! i = Some (k, v)
       ∧ ∀ j v', (i < j)%nat → pairs !! j ≠ Some (k, v').

(** For some [i], the [i]-th finding is [k] and the [i]-th corrected line is
    [v], and no later finding that still has a corrected line is [k]. *)
Definition paired (findings corrected : list text) (k v : text) : Prop :=
  ∃ i, findings !! i = Some k ∧ corrected !! i = Some v
       ∧ ∀ j, (i < j)%nat → findings !! j = Some k → corrected !! j = None.

(** The elements of [l], each once, in the order of their first occurrence. *)
Fixpoint first_occurrences (l : list text) : list text :=
  match l with
  | [] => []
  | x :: l' => x :: filter (λ y, y ≠ x) (first_occurrences l')
  end.

(** [s] has no parenthesised span: no [(] with a [)] somewhere after it. *)
Definition span_free (s : text) : Prop :=
  ∀ a b c, s ≠ a ++ lparen :: b ++ rparen :: c.

(** [check_view line view]: [view] is [line] with its parenthesised spans
    deleted, from the left, each span running from a [(] to the nearest [)]
    after it. *)
Inductive check_view : text → text → Prop :=
  | check_view_done s :
      span_free s → check_view s s
  | check_view_span pre body rest view :
      lparen ∉ pre → rparen ∉ body →
      check_view rest view →
      check_view (pre ++ lparen :: body ++ rparen :: rest) (pre ++ view).

(** Hiragana and Katakana, U+3040..U+309F and U+30A0..U+30FF. *)
Definition kana (c : char) : Prop :=
  0x3040 ≤ c ≤ 0x309F ∨ 0x30A0 ≤ c ≤ 0x30FF.

(** CJK Unified Ideographs, U+4E00..U+9FFF. *)
Definition cjk (c : char) : Prop := 0x4E00 ≤ c ≤ 0x9FFF.

(** The findings log as it would be if the lines were written with their
    trailing whitespace trimmed and the rest kept. *)
Definition trailing_trimmed_log (final_lines : list text) : text :=
  flat_map (λ line, if is_finding line then rstrip line ++ [newline] else [])
           final_lines.

(** A line as [parse_log] returns them: not empty, without a newline, and
    with no whitespace to trim. *)
Definition clean_line (line : text) : Prop :=
  line ≠ [] ∧ (newline ∉ line) ∧ strip line = line.

(** Every write the environment has scheduled goes through. *)
Definition writes_succeed (w : world) : Prop := Forall (λ f, f = None) (faults w).

(** The [n]-th write of the run, counted from 0, meets a fault. *)
Definition write_fails (n : nat) (w : world) : Prop :=
  ∃ fault, faults w !! n = Some (Some fault).

(** The carriage return, which reading a file in text mode turns into a
    newline. *)
Definition carriage_return : char := 13.

(** The file that the logging handler of [fix_script.py] empties and
    writes at each run. *)
Definition fix_script_log : string := "fix_script.log".

(** A replacements file that makes the scan raise: it exists and cannot be
    read, or it holds JSON that is not an object, or an object with a value
    that is not a string. *)
Definition rules_unusable (s : json_store) : Prop :=
  s = StoreUnreadable
  ∨ s = StoreJson JNotObject
  ∨ ∃ rules old, s = StoreJson (JObject rules) ∧ (old, JOther) ∈ rules.

(** * Sample inputs *)

Module Sample.

(** Each line followed by a newline. *)
Definition unlines (ls : list text) : text := flat_map (λ l, l ++ [newline]) ls.

(** The three ideographs of the word for the Japanese language. *)
Definition nihongo : text := [0x65E5; 0x672C; 0x8A9E].

Definition store (fs : list (string * text)) : gmap string node :=
  list_to_map (prod_map id Text <$> fs).

(** Logs with a repeated finding and one corrected line too few. *)
Definition uneven_logs : world :=
  World (store [("language_proof.log", unlines [lit "A"; lit "B"; lit "A"; lit "C"]);
                ("language_proof_translated.log", unlines [lit "A2"; lit "  B2"; []; lit "A3"])])
        StoreMissing [] [].

(** A document [foo] and logs that give the rules [foo -> bar], [bar -> baz]. *)
Definition cascade : world :=
  World (store [("language_proof.log", unlines [lit "foo"; lit "bar"]);
                ("language_proof_translated.log", unlines [lit "bar"; lit "baz"]);
                ("doc.txt", lit "foo")])
        StoreMissing [] [].

(** The same, but the document holds neither [foo] nor [bar]. *)
Definition untouched : world :=
  World (store [("language_proof.log", unlines [lit "foo"; lit "bar"]);
                ("language_proof_translated.log", unlines [lit "bar"; lit "baz"]);
                ("doc.txt", lit "quux")])
        StoreMissing [] [].

(** The logs of [cascade] and a document that is not text. *)
Definition cascade_undecodable : world :=
  World (<["doc.txt" := Opaque]> (files cascade)) StoreMissing [] [].


(** The logs of [cascade] without the document. *)
Definition no_target : world :=
  World (store [("language_proof.log", unlines [lit "foo"; lit "bar"]);
                ("language_proof_translated.log", unlines [lit "bar"; lit "baz"])])
        StoreMissing [] [].

(** A document and the findings log, before any correction is saved. *)
Definition unedited : world :=
  World (store [("language_proof.log", unlines [lit "foo"; lit "bar"]);
                ("doc.txt", lit "foo bar foo")])
        StoreMissing [] [].

(** The same once the corrections are saved as the findings stand. *)
Definition unedited_saved : world :=
  (run (save_translated_log "language_proof_translated.log" [lit "foo"; lit "bar"])
       unedited).2.


Definition exempt_line : text := lit "hello (" ++ nihongo ++ lit ") world".
Definition flagged_line : text := lit "hello " ++ nihongo ++ lit " world".
Definition indented_line : text := lit "  " ++ nihongo ++ lit " desu  ".

(** A line whose parentheses are the full-width ones, U+FF08 and U+FF09. *)
Definition fullwidth_line : text := lit "hello " ++ [0xFF08] ++ nihongo ++ [0xFF09].

(** A document for the detector, with one configured replacement. *)
Definition scanned : world :=
  World (store [("doc.txt", exempt_line ++ [newline] ++ flagged_line ++ [newline]
                            ++ indented_line)])
        (StoreJson (JObject [(lit "desu", JString (lit "da"))])) [] [].

(** The same document when the disk fills up as it is written back. *)
Definition scanned_disk_full : world :=
  World (files scanned) (replacements_json scanned) [Some (WriteFails 3)] [].

(** The text of [scanned] after the configured replacement. *)
Definition scanned_rewritten : text :=
  exempt_line ++ [newline] ++ flagged_line ++ [newline]
  ++ lit "  " ++ nihongo ++ lit " da   ".

(** A document that is not UTF-8 text, next to the log of an earlier scan;
    the next two writes, if any, will go through. *)
Definition undecodable : world :=
  World (<["doc.txt" := Opaque]> (store [("language_check.log", unlines [flagged_line])]))
        StoreMissing [None; None] [].

(** No document, only the log of an earlier scan. *)
Definition no_document : world :=
  World (store [("language_check.log", unlines [flagged_line])])
        StoreMissing [None; None] [].

(** A document that holds text, a replacements file with a number for a
    value, and the log of an earlier scan. *)
Definition number_rule : world :=
  World (store [("doc.txt", lit "hello world");
                ("language_check.log", unlines [flagged_line])])
        (StoreJson (JObject [(lit "hello", JOther)])) [None; None] [].

(** A document and a replacements file whose one rule maps [colour] to
    itself. *)
Definition identity_rule : world :=
  World (store [("doc.txt", lit "colour")])
        (StoreJson (JObject [(lit "colour", JString (lit "colour"))])) [] [].

(** The document of [scanned] without a replacements file. *)
Definition scanned_without_rules : world :=
  World (files scanned) StoreMissing [] [].

(** A document without a finding, next to the log of an earlier scan. *)
Definition clean_document : world :=
  World (store [("doc.txt", unlines [exempt_line; lit "hello world"]);
                ("language_check.log", unlines [flagged_line])])
        StoreMissing [] [].

(** Logs with one finding more than there are corrected lines. *)
Definition surplus : world :=
  World (store [("language_proof.log", unlines [lit "foo"; lit "bar"; lit "qux"]);
                ("language_proof_translated.log", unlines [lit "bar"; lit "baz"])])
        StoreMissing [] [].

(** The same, when the findings log cannot be opened for writing: the
    first write goes through and the second fails. *)
Definition log_unwritable : world :=
  World (files clean_document) StoreMissing [None; Some OpenFails] [].

End Sample.

(** * Facts about the string operations *)

Section text_facts.
Implicit Types (c : char) (s old new pre post : text).

Lemma startswith_spec old s : startswith old s = true ↔ ∃ post, s = old ++ post.
Proof.
  revert s. induction old as [|a old IH]; intros [|b s]; simpl.
  - split; [by exists []|done].
  - split; [by eexists|done].
  - split; [done|]. by intros [post ?].
  - rewrite andb_true_iff, Z.eqb_eq, IH. split.
    + intros [-> [post ->]]. by exists post.
    + intros [post [= -> ->]]. eauto.
Qed.

Lemma startswith_app old post : startswith old (old ++ post) = true.
Proof. apply startswith_spec. by exists post. Qed.

Lemma contains_spec old s : contains old s = true ↔ occurs old s.
Proof.
  induction s as [|c s IH].
  - simpl. rewrite orb_false_r, startswith_spec. split.
    + intros [post ?]. by exists [], post.
    + intros [pre [post H]]. symmetry in H.
      apply app_eq_nil in H as [-> H]. exists post. by rewrite H.
  - simpl. rewrite orb_true_iff, startswith_spec, IH. split.
    + intros [[post H]|[pre [post H]]].
      * by exists [], post.
      * exists (c :: pre), post. by rewrite H.
    + intros [[|c' pre] [post H]].
      * left. by exists post.
      * right. injection H as -> ->. by exists pre, post.
Qed.

Lemma contains_false old s : contains old s = false ↔ ¬ occurs old s.
Proof. rewrite <- contains_spec. by destruct (contains old s). Qed.

Lemma contains_empty s : contains [] s = true.
Proof. by destruct s. Qed.

Lemma occurs_at_cons old c pre s :
  occurs_at old (c :: pre) (c :: s) ↔ occurs_at old pre s.
Proof.
  split; intros [post H]; exists post.
  - by injection H.
  - by rewrite H.
Qed.

Lemma first_occurs_at_cons old c pre s :
  first_occurs_at old (c :: pre) (c :: s) →
  startswith old (c :: s) = false ∧ first_occurs_at old pre s.
Proof.
  intros [Hocc Hmin]. split.
  - destruct (startswith old (c :: s)) eqn:E; [|done].
    apply startswith_spec in E as [post E].
    specialize (Hmin [] (ex_intro _ post E)). simpl in Hmin. lia.
  - split; [by apply occurs_at_cons in Hocc|].
    intros pre' H. apply (occurs_at_cons _ c) in H.
    apply Hmin in H. simpl in H. lia.
Qed.

Lemma replace_scan_skip old new k s :
  replace_scan old new k s = replace_scan old new O (drop k s).
Proof.
  revert k. induction s as [|c s IH]; intros [|k]; simpl; auto.
Qed.

Lemma replace_scan_absent old new s :
  contains old s = false → replace_scan old new O s = s.
Proof.
  induction s as [|c s IH]; [done|].
  simpl. intros [-> H]%orb_false_iff. by rewrite IH.
Qed.

(** Where [old] does not occur, [replace] changes nothing. *)
Lemma replace_absent old new s :
  contains old s = false → replace old new s = s.
Proof.
  destruct old as [|a old]; [by rewrite contains_empty|].
  apply replace_scan_absent.
Qed.

Lemma replace_scan_cons old new c s :
  replace_scan old new O (c :: s)
  = if startswith old (c :: s)
    then new ++ replace_scan old new (Nat.pred (length old)) s
    else c :: replace_scan old new O s.
Proof. done. Qed.

Lemma replace_scan_here a old new post :
  replace_scan (a :: old) new O ((a :: old) ++ post)
  = new ++ replace_scan (a :: old) new O post.
Proof.
  rewrite <- app_comm_cons, replace_scan_cons, app_comm_cons.
  rewrite startswith_app, replace_scan_skip. simpl.
  by rewrite drop_app_length.
Qed.

(** At the leftmost occurrence of a non-empty [old], [replace] keeps what
    precedes it, puts [new] in its place and goes on after it. *)
Lemma replace_first old new pre post :
  old ≠ [] →
  first_occurs_at old pre (pre ++ old ++ post) →
  replace old new (pre ++ old ++ post) = pre ++ new ++ replace old new post.
Proof.
  destruct old as [|a old]; [done|]. intros _. unfold replace.
  induction pre as [|c pre IH]; intros Hfirst.
  - apply replace_scan_here.
  - rewrite <- app_comm_cons in Hfirst |- *.
    apply first_occurs_at_cons in Hfirst as [Hno Hfirst].
    rewrite replace_scan_cons, Hno, IH; done.
Qed.

(** ** Trimming *)

Lemma dropwhile_split (p : char → bool) s :
  ∃ l, s = l ++ dropwhile p s ∧ Forall (λ c, p c = true) l.
Proof.
  induction s as [|c s (l & IH & Hl)]; simpl.
  - by exists [].
  - destruct (p c) eqn:E.
    + exists (c :: l). split; [by rewrite IH at 1|by constructor].
    + by exists [].
Qed.

Lemma dropwhile_head (p : char → bool) s c :
  head (dropwhile p s) = Some c → p c = false.
Proof.
  induction s as [|a s IH]; simpl; [done|].
  destruct (p a) eqn:E; [done|]. simpl. by intros [= <-].
Qed.

Lemma dropwhile_fixed (p : char → bool) s :
  (∀ c, head s = Some c → p c = false) → dropwhile p s = s.
Proof. destruct s as [|c s]; simpl; [done|]. intros H. by rewrite H. Qed.

Lemma dropwhile_app (p : char → bool) l s :
  Forall (λ c, p c = true) l → dropwhile p (l ++ s) = dropwhile p s.
Proof. induction 1 as [|c l E _ IH]; simpl; [done|]. by rewrite E. Qed.

Lemma dropwhile_suffix (p : char → bool) s : dropwhile p s `suffix_of` s.
Proof. destruct (dropwhile_split p s) as (l & E & _). by exists l. Qed.

Lemma rstrip_split s :
  ∃ r, s = rstrip s ++ r ∧ Forall (λ c, isspace c = true) r.
Proof.
  unfold rstrip. destruct (dropwhile_split isspace (reverse s)) as (l & E & Hl).
  exists (reverse l). split; [|by apply Forall_reverse].
  by rewrite <- reverse_app, <- E, reverse_involutive.
Qed.

Lemma rstrip_last s c : last (rstrip s) = Some c → isspace c = false.
Proof. unfold rstrip. rewrite last_reverse. apply dropwhile_head. Qed.

Lemma rstrip_app s r :
  Forall (λ c, isspace c = true) r → rstrip (s ++ r) = rstrip s.
Proof.
  intros Hr. unfold rstrip. rewrite reverse_app, dropwhile_app; [done|].
  by apply Forall_reverse.
Qed.

(** [strip] removes a run of whitespace at each end and nothing else. *)
Lemma strip_split s :
  ∃ l r, s = l ++ strip s ++ r
         ∧ Forall (λ c, isspace c = true) l ∧ Forall (λ c, isspace c = true) r.
Proof.
  destruct (rstrip_split s) as (r & Es & Hr).
  destruct (dropwhile_split isspace (rstrip s)) as (l & El & Hl).
  exists l, r. split; [|done]. fold (lstrip (rstrip s)) in El.
  fold (strip s) in El. rewrite app_assoc. by rewrite <- El.
Qed.

Lemma strip_head s c : head (strip s) = Some c → isspace c = false.
Proof. apply dropwhile_head. Qed.

Lemma strip_last s c : last (strip s) = Some c → isspace c = false.
Proof.
  intros H. apply (rstrip_last s).
  destruct (dropwhile_suffix isspace (rstrip s)) as [l E].
  fold (lstrip (rstrip s)) in E. fold (strip s) in E. rewrite E.
  destruct (strip s) as [|a t] eqn:Et; [done|].
  rewrite <- H. apply last_app_cons.
Qed.

(** What trimming does, in one statement. *)
Lemma strip_trims s :
  ∃ l r,
    s = l ++ strip s ++ r
    ∧ Forall (λ c, isspace c = true) l
    ∧ Forall (λ c, isspace c = true) r
    ∧ (∀ c, head (strip s) = Some c → isspace c = false)
    ∧ (∀ c, last (strip s) = Some c → isspace c = false).
Proof.
  destruct (strip_split s) as (l & r & E & Hl & Hr).
  exists l, r. split_and!; [done..|apply strip_head|apply strip_last].
Qed.

(** A text with no whitespace at either end is left as it is. *)
Lemma strip_fixed s :
  (∀ c, head s = Some c → isspace c = false) →
  (∀ c, last s = Some c → isspace c = false) →
  strip s = s.
Proof.
  intros Hh Hl. unfold strip, lstrip, rstrip.
  rewrite (dropwhile_fixed _ (reverse s)).
  - rewrite reverse_involutive. by apply dropwhile_fixed.
  - intros c. rewrite head_reverse. apply Hl.
Qed.

Lemma strip_idemp s : strip (strip s) = strip s.
Proof. apply strip_fixed; [apply strip_head|apply strip_last]. Qed.

Lemma strip_app_space s r :
  Forall (λ c, isspace c = true) r → strip (s ++ r) = strip s.
Proof. intros Hr. unfold strip. by rewrite rstrip_app. Qed.

(** ** Lines *)

Lemma filter_map_strip (ls : list text) :
  map strip (List.filter (λ line, truthy (strip line)) ls)
  = List.filter truthy (map strip ls).
Proof.
  induction ls as [|l ls IH]; simpl; [done|].
  destruct (truthy (strip l)); simpl; by rewrite IH.
Qed.

(** The lines a file yields are the pieces between its newlines, each
    followed by its newline but possibly the last. *)
Lemma iter_lines_split_lines s :
  (iter_lines s = [] ∧ split_lines s = [[]]) ∨
  ∃ l l' it sp,
    iter_lines s = l :: it ∧ split_lines s = l' :: sp
    ∧ (l = l' ∨ l = l' ++ [newline])
    ∧ List.filter truthy (map strip it) = List.filter truthy (map strip sp).
Proof.
  induction s as [|c s IH]; simpl; [by left|]. right.
  destruct (c =? newline) eqn:Ec.
  - apply Z.eqb_eq in Ec as ->.
    exists [newline], [], (iter_lines s), (split_lines s).
    split_and!; [done|done|by right|].
    destruct IH as [[-> ->]|(l & l' & it & sp & -> & -> & Hl & IH)]; [done|].
    simpl. destruct Hl as [->| ->]; [by rewrite IH|].
    rewrite strip_app_space by (by repeat constructor). by rewrite IH.
  - destruct IH as [[-> ->]|(l & l' & it & sp & -> & -> & Hl & IH)].
    + exists [c], [c], [], []. split_and!; auto.
    + exists (c :: l), (c :: l'), it, sp. split_and!; auto.
      destruct Hl as [->| ->]; [by left|by right].
Qed.

Lemma iter_lines_trimmed s :
  map strip (List.filter (λ line, truthy (strip line)) (iter_lines s))
  = List.filter truthy (map strip (split_lines s)).
Proof.
  rewrite filter_map_strip.
  destruct (iter_lines_split_lines s)
    as [[-> ->]|(l & l' & it & sp & -> & -> & Hl & IH)]; [done|].
  simpl. destruct Hl as [->| ->]; [by rewrite IH|].
  rewrite strip_app_space by (by repeat constructor). by rewrite IH.
Qed.

Lemma split_lines_nonempty s : split_lines s ≠ [].
Proof.
  destruct s as [|c s]; simpl; [done|].
  destruct (c =? newline); [done|]. by destruct (split_lines s).
Qed.

(** No line of [s.split('\n')] holds a newline. *)
Lemma split_lines_no_newline s line :
  line ∈ split_lines s → newline ∉ line.
Proof.
  revert line. induction s as [|c s IH]; simpl; intros line.
  - intros ->%list_elem_of_singleton. apply not_elem_of_nil.
  - destruct (c =? newline) eqn:Ec.
    + intros [->|H]%elem_of_cons; [apply not_elem_of_nil|by apply IH].
    + destruct (split_lines s) as [|l ls] eqn:E;
        [by apply split_lines_nonempty in E|].
      intros [->|H]%elem_of_cons.
      * apply not_elem_of_cons. split; [|apply IH; by left].
        intros Hc. rewrite <- Hc, Z.eqb_refl in Ec. done.
      * apply IH. by right.
Qed.

End text_facts.

(** * The Log Reader *)

Section log_reader.
Implicit Types (w : world) (file_path : string).

Lemma parse_log_run file_path w :
  parse_log file_path w =
  match files w !! file_path with
  | Some (Text content) =>
      (Ok (List.filter truthy (map strip (split_lines content))), w)
  | Some Opaque => (Ok [], logged (ParserError file_path) w)
  | None => (Ok [], logged (ParserNotFound file_path) w)
  end.
Proof.
  unfold parse_log, try_except, read_file, mbind, io_bind.
  destruct (files w !! file_path) as [[content|]|]; try done.
  simpl. unfold mret, io_ret. by rewrite iter_lines_trimmed.
Qed.

(** [parse_log] returns, writes no file, and what it returns depends on
    the files only. *)
Lemma parse_log_files file_path w :
  ∃ lines w', parse_log file_path w = (Ok lines, w') ∧ files w' = files w
              ∧ faults w' = faults w
              ∧ replacements_json w' = replacements_json w.
Proof.
  rewrite parse_log_run.
  destruct (files w !! file_path) as [[content|]|]; by eexists _, _.
Qed.

Lemma parse_log_same_files file_path w1 w2 :
  files w1 = files w2 → (parse_log file_path w1).1 = (parse_log file_path w2).1.
Proof.
  intros E. rewrite !parse_log_run, E.
  by destruct (files w2 !! file_path) as [[content|]|].
Qed.

Lemma parse_log_nonempty file_path w lines :
  (parse_log file_path w).1 = Ok lines → lines ≠ [] →
  ∀ w0, files w0 = files w → parse_log file_path w0 = (Ok lines, w0).
Proof.
  intros H Hne w0 E. rewrite parse_log_run in *. rewrite E.
  destruct (files w !! file_path) as [[content|]|]; cbn in H; congruence.
Qed.

End log_reader.

(** * The Pair Builder *)

Section pair_builder.
Implicit Types (k v : text) (d : dict) (pairs : list (text * text)).

Lemma dict_get_set k v d k' :
  dict_get (dict_set k v d) k' = if decide (k = k') then Some v else dict_get d k'.
Proof.
  induction d as [|[k0 v0] d IH]; simpl.
  - by destruct (decide (k = k')).
  - destruct (decide (k0 = k)) as [->|Hk]; simpl.
    + by destruct (decide (k = k')).
    + rewrite IH. destruct (decide (k0 = k')) as [->|]; [|done].
      by rewrite decide_False by done.
Qed.

Lemma keys_dict_set k v d :
  keys (dict_set k v d) = if decide (k ∈ keys d) then keys d else keys d ++ [k].
Proof.
  unfold keys. induction d as [|[k0 v0] d IH]; csimpl; [done|].
  destruct (decide (k0 = k)) as [->|Hk]; csimpl.
  - rewrite decide_True; [done|by left].
  - rewrite IH. destruct (decide (k ∈ d.*1)) as [Hin|Hin].
    + rewrite decide_True; [done|by right].
    + rewrite decide_False; [done|]. by intros [?|?]%elem_of_cons.
Qed.

Lemma NoDup_keys_dict_set k v d : NoDup (keys d) → NoDup (keys (dict_set k v d)).
Proof.
  intros Hd. rewrite keys_dict_set. destruct (decide (k ∈ keys d)); [done|].
  apply NoDup_app. split_and!; [done| |apply NoDup_singleton].
  by intros x Hx ->%list_elem_of_singleton.
Qed.

Lemma last_pair_nil k v : ¬ last_pair [] k v.
Proof. by intros (i & H & _). Qed.

Lemma last_pair_cons k0 v0 pairs k v :
  last_pair ((k0, v0) :: pairs) k v
  ↔ last_pair pairs k v ∨ (k0 = k ∧ v0 = v ∧ k ∉ pairs.*1).
Proof.
  split.
  - intros ([|i] & Hi & Hlast).
    + right. injection Hi as -> ->. split_and!; [done|done|].
      intros ([k' v'] & -> & (j & Hj)%list_elem_of_lookup)%list_elem_of_fmap.
      by apply (Hlast (S j) v'); [lia|].
    + left. exists i. split; [done|]. intros j v' Hlt.
      apply (Hlast (S j) v'). lia.
  - intros [(i & Hi & Hlast)|(-> & -> & Hk)].
    + exists (S i). split; [done|]. intros [|j] v' Hlt; [lia|].
      apply Hlast. lia.
    + exists O. split; [done|]. intros [|j] v' Hlt; [lia|]. simpl.
      intros Hj. apply Hk, list_elem_of_fmap. exists (k, v').
      split; [done|]. by eapply list_elem_of_lookup_2.
Qed.

(** Filling a dictionary from a list of pairs: the last pair of a key
    gives its value, and the keys without a pair keep theirs. *)
Lemma dict_get_fold_set pairs d k v :
  dict_get (fold_left (λ d kv, dict_set kv.1 kv.2 d) pairs d) k = Some v
  ↔ last_pair pairs k v ∨ ((k ∉ pairs.*1) ∧ dict_get d k = Some v).
Proof.
  revert d. induction pairs as [|[k0 v0] pairs IH]; intros d; simpl.
  - split.
    + intros H. right. split; [apply not_elem_of_nil|done].
    + intros [H|[_ H]]; [by apply last_pair_nil in H|done].
  - rewrite IH, last_pair_cons, dict_get_set, not_elem_of_cons. simpl.
    destruct (decide (k0 = k)) as [->|Hk]; [|intuition congruence].
    split; [|intuition congruence].
    intros [H|[Hk [= ->]]]; [by left; left|]. left. by right.
Qed.

Lemma NoDup_keys_fold_set pairs d :
  NoDup (keys d) → NoDup (keys (fold_left (λ d kv, dict_set kv.1 kv.2 d) pairs d)).
Proof.
  revert d. induction pairs as [|[k0 v0] pairs IH]; intros d Hd; simpl; [done|].
  by apply IH, NoDup_keys_dict_set.
Qed.

Lemma dict_of_pairs_get pairs k v :
  dict_get (dict_of_pairs pairs) k = Some v ↔ last_pair pairs k v.
Proof.
  unfold dict_of_pairs. rewrite dict_get_fold_set.
  split; [|by left]. by intros [H|[_ H]].
Qed.

Lemma dict_of_pairs_NoDup pairs : NoDup (keys (dict_of_pairs pairs)).
Proof. apply NoDup_keys_fold_set, NoDup_nil_2. Qed.

(** The keys come in the order in which they were first set. *)
Lemma keys_fold_set pairs d :
  keys (fold_left (λ d kv, dict_set kv.1 kv.2 d) pairs d)
  = keys d ++ filter (λ y, y ∉ keys d) (first_occurrences (pairs.*1)).
Proof.
  revert d. induction pairs as [|[k v] pairs IH]; intros d; csimpl.
  - by rewrite app_nil_r.
  - rewrite IH, keys_dict_set. destruct (decide (k ∈ keys d)) as [Hk|Hk].
    + rewrite filter_cons_False by tauto. f_equal.
      rewrite list_filter_filter. apply list_filter_iff. intros y. split; [|tauto].
      intros Hy. split; [done|]. by intros ->.
    + rewrite filter_cons_True by done. rewrite <- app_assoc. f_equal. simpl. f_equal.
      rewrite list_filter_filter. apply list_filter_iff. intros y.
      rewrite not_elem_of_app, list_elem_of_singleton. tauto.
Qed.

Lemma dict_of_pairs_keys pairs :
  keys (dict_of_pairs pairs) = first_occurrences (pairs.*1).
Proof.
  unfold dict_of_pairs. rewrite keys_fold_set. simpl.
  induction (first_occurrences (pairs.*1)) as [|x l IH]; [done|].
  rewrite filter_cons_True by apply not_elem_of_nil. by rewrite IH.
Qed.

Lemma fst_zip_take (findings corrected : list text) :
  (zip findings corrected).*1 = take (length corrected) findings.
Proof.
  revert corrected. induction findings as [|f findings IH]; intros [|c corrected];
    csimpl; [done..|]. by rewrite IH.
Qed.

Lemma dict_set_nonempty k v d : dict_set k v d ≠ [].
Proof. destruct d as [|[k0 v0] d]; simpl; [done|]. by destruct (decide (k0 = k)). Qed.

Lemma fold_set_nonempty pairs d :
  d ≠ [] → fold_left (λ d kv, dict_set kv.1 kv.2 d) pairs d ≠ [].
Proof.
  revert d. induction pairs as [|kv pairs IH]; intros d Hd; simpl; [done|].
  apply IH, dict_set_nonempty.
Qed.

Lemma dict_of_pairs_nonempty kv pairs : dict_of_pairs (kv :: pairs) ≠ [].
Proof.
  unfold dict_of_pairs. cbn [fold_left]. apply fold_set_nonempty, dict_set_nonempty.
Qed.

Lemma last_pair_zip (findings corrected : list text) k v :
  last_pair (zip findings corrected) k v ↔ paired findings corrected k v.
Proof.
  split; intros (i & Hi & Hrest).
  - apply lookup_zip_Some in Hi as [Hf Hc]. exists i. split_and!; [done..|].
    intros j Hlt Hj. destruct (corrected !! j) as [v'|] eqn:Hc'; [|done].
    destruct (Hrest j v' Hlt). by apply lookup_zip_Some.
  - destruct Hrest as [Hc Hrest]. exists i. split; [by apply lookup_zip_Some|].
    intros j v' Hlt [Hf' Hc']%lookup_zip_Some.
    by rewrite (Hrest j Hlt Hf') in Hc'.
Qed.

Lemma create_replacement_map_run proof_log_path translated_log_path w
      findings corrected :
  (parse_log proof_log_path w).1 = Ok findings →
  (parse_log translated_log_path w).1 = Ok corrected →
  ∃ w', files w' = files w ∧ faults w' = faults w
    ∧ replacements_json w' = replacements_json w
    ∧ create_replacement_map proof_log_path translated_log_path w
      = if negb (truthy findings) || negb (truthy corrected)
        then (Ok None, logged LogsEmptyOrUnparsed w')
        else (Ok (Some (dict_of_pairs (zip findings corrected))), w').
Proof.
  intros Hf Hc. unfold create_replacement_map, mbind, io_bind, log.
  pose proof (parse_log_same_files proof_log_path (logged ParsingLogs w) w eq_refl) as S1.
  destruct (parse_log_files proof_log_path (logged ParsingLogs w))
    as (l1 & w1 & E1 & F1 & G1 & J1).
  rewrite Hf, E1 in S1. rewrite E1. cbn in S1, F1, G1, J1. injection S1 as ->.
  pose proof (parse_log_same_files translated_log_path w1 w F1) as S2.
  destruct (parse_log_files translated_log_path w1)
    as (l2 & w2 & E2 & F2 & G2 & J2).
  rewrite Hc, E2 in S2. rewrite E2. cbn in S2. injection S2 as ->.
  exists w2. split_and!; [congruence..|].
  by destruct (negb (truthy findings) || negb (truthy corrected)).
Qed.

(** When a map is built, both logs were read without a diagnostic, and
    the map depends on the files only. *)
Lemma create_replacement_map_Some proof_log_path translated_log_path w d :
  (create_replacement_map proof_log_path translated_log_path w).1 = Ok (Some d) →
  d ≠ [] ∧
  ∀ w0, files w0 = files w →
    create_replacement_map proof_log_path translated_log_path w0
    = (Ok (Some d), logged ParsingLogs w0).
Proof.
  intros H.
  destruct (parse_log_files proof_log_path w) as (findings & w1 & E1 & _).
  destruct (parse_log_files translated_log_path w) as (corrected & w2 & E2 & _).
  destruct (create_replacement_map_run proof_log_path translated_log_path w
              findings corrected) as (w' & _ & _ & _ & E);
    [by rewrite E1|by rewrite E2|].
  rewrite E in H.
  destruct findings as [|f findings]; [done|].
  destruct corrected as [|c corrected]; [done|].
  change (Ok (Some (dict_of_pairs (zip (f :: findings) (c :: corrected))))
          = Ok (Some d)) in H.
  injection H as <-. split; [apply dict_of_pairs_nonempty|].
  intros w0 E0.
  unfold create_replacement_map, mbind, io_bind, log.
  rewrite (parse_log_nonempty proof_log_path w (f :: findings));
    [|by rewrite E1|done|done].
  by rewrite (parse_log_nonempty translated_log_path w (c :: corrected));
    [|by rewrite E2|done|done].
Qed.

End pair_builder.

(** * The Substitution Engine *)

Section substitution_engine.
Implicit Types (d : dict) (content old new : text) (w : world).

Lemma fold_apply_rule_count d content n :
  fold_left apply_rule d (content, n)
  = ((fold_left apply_rule d (content, O)).1,
     (n + (fold_left apply_rule d (content, O)).2)%nat).
Proof.
  revert content n. induction d as [|[old new] d IH]; intros content n; simpl.
  - by rewrite Nat.add_0_r.
  - destruct (contains old content).
    + rewrite (IH _ (S n)), (IH _ 1%nat). simpl. f_equal. lia.
    + apply IH.
Qed.

Lemma apply_rules_nil content : apply_rules [] content = (content, O).
Proof. done. Qed.

(** The loop, one rule at a time. *)
Lemma apply_rules_cons old new d content :
  apply_rules ((old, new) :: d) content
  = if contains old content
    then ((apply_rules d (replace old new content)).1,
          S (apply_rules d (replace old new content)).2)
    else apply_rules d content.
Proof.
  unfold apply_rules. simpl. destruct (contains old content); [|done].
  by rewrite fold_apply_rule_count.
Qed.

Lemma apply_rules_absent d content :
  (∀ old new, (old, new) ∈ d → contains old content = false) →
  apply_rules d content = (content, O).
Proof.
  induction d as [|[old new] d IH]; intros H; [done|].
  rewrite apply_rules_cons, (H old new) by left.
  apply IH. intros old' new' Hin. apply (H old' new'). by right.
Qed.

(** [main] once the map is built and the target is read. *)
Lemma main_run proof_log translated_log target_file w d original :
  (create_replacement_map proof_log translated_log w).1 = Ok (Some d) →
  files w !! target_file = Some (Text original) →
  main proof_log translated_log target_file w
  = let w1 := logged (FoundRules (length d))
                (logged StartingReplacement
                   (logged (ReadingTarget target_file)
                      (logged ParsingLogs
                         (logged (TargetFile target_file)
                            (logged ScriptStarted w))))) in
    let content := (apply_rules d original).1 in
    let modified_count := (apply_rules d original).2 in
    if decide (original = content)
    then (Ok (), logged ScriptFinished (logged NoChangesMade w1))
    else match write_file target_file content w1 with
         | (Ok _, w2) =>
             (Ok (), logged ScriptFinished
                       (logged (ModificationSuccessful modified_count) w2))
         | (Raise _, w2) =>
             (Ok (), logged ScriptFinished (logged ErrorWriting w2))
         end.
Proof.
  intros [Hd Hmap]%create_replacement_map_Some Ht.
  unfold main, mbind, io_bind, log at 1 2.
  rewrite Hmap by done. destruct d as [|rule d]; [done|].
  unfold try_except, read_file, log. cbn [files logged]. rewrite Ht.
  cbn [mret io_ret]. destruct (apply_rules (rule :: d) original) as [content n].
  cbn [fst snd]. destruct (decide (original = content)); [done|].
  by destruct (write_file _ _ _) as [[[]|e] w2].
Qed.

End substitution_engine.

(** * The Script Detector *)

Section detection.
Implicit Types (c : char) (s line pre body rest view : text).

Lemma between_spec lo hi c : between lo hi c = true ↔ lo ≤ c ≤ hi.
Proof. unfold between. rewrite andb_true_iff, !Z.leb_le. done. Qed.

Lemma japanese_pattern_spec c : japanese_pattern c = true ↔ kana c.
Proof. unfold japanese_pattern, kana. by rewrite orb_true_iff, !between_spec. Qed.

Lemma chinese_pattern_spec c : chinese_pattern c = true ↔ cjk c.
Proof. apply between_spec. Qed.

(** A search succeeds exactly on the texts that hold a character of the
    class of the pattern. *)
Lemma search_is_Some (pattern : char → bool) s :
  is_Some (search pattern s) ↔ ∃ c, c ∈ s ∧ pattern c = true.
Proof.
  induction s as [|a s IH]; simpl.
  - split; [by intros [? ?]|]. by intros (c & ?%not_elem_of_nil & _).
  - destruct (pattern a) eqn:Ea.
    + split; [|by eexists]. intros _. exists a. split; [by left|done].
    + rewrite IH. split; intros (c & Hc & E).
      * exists c. split; [by right|done].
      * apply elem_of_cons in Hc as [->|Hc]; [congruence|by exists c].
Qed.

Lemma is_finding_spec line :
  is_finding line = true ↔ ∃ c, c ∈ sub_parens line ∧ (kana c ∨ cjk c).
Proof.
  unfold is_finding. rewrite orb_true_iff, !bool_decide_eq_true, !search_is_Some.
  split.
  - intros [(c & Hc & E)|(c & Hc & E)]; exists c; split; try done.
    + left. by apply japanese_pattern_spec.
    + right. by apply chinese_pattern_spec.
  - intros (c & Hc & [E|E]); [left|right]; exists c; split; try done.
    + by apply japanese_pattern_spec.
    + by apply chinese_pattern_spec.
Qed.

(** ** Deleting the parenthesised spans *)

Lemma closes_spec s :
  closes s = true
  ↔ ∃ body rest, s = body ++ rparen :: rest ∧ (rparen ∉ body) ∧ (newline ∉ body).
Proof.
  induction s as [|c s IH]; simpl.
  - split; [done|]. by intros ([|??] & ? & ? & _).
  - destruct (c =? rparen) eqn:Ec; simpl.
    + apply Z.eqb_eq in Ec as ->. split; [|done]. intros _.
      exists [], s. split_and!; [done|apply not_elem_of_nil..].
    + apply Z.eqb_neq in Ec. rewrite andb_true_iff, negb_true_iff, Z.eqb_neq, IH.
      split.
      * intros (Hn & body & rest & -> & Hr & Hb). exists (c :: body), rest.
        split_and!; [done|..]; apply not_elem_of_cons; by split.
      * intros ([|c' body] & rest & E & Hr & Hb); injection E as -> E; [done|].
        apply not_elem_of_cons in Hr as [_ Hr].
        apply not_elem_of_cons in Hb as [Hn Hb]. split; [done|].
        by exists body, rest.
Qed.

Lemma scan_cons_outside c s :
  sub_parens_scan false (c :: s)
  = if (c =? lparen) && closes s then sub_parens_scan true s
    else c :: sub_parens_scan false s.
Proof. done. Qed.

Lemma scan_copy pre s :
  lparen ∉ pre → sub_parens_scan false (pre ++ s) = pre ++ sub_parens_scan false s.
Proof.
  induction pre as [|c pre IH]; [done|].
  intros [Hc Hpre]%not_elem_of_cons. rewrite <- !app_comm_cons, scan_cons_outside.
  apply not_eq_sym, Z.eqb_neq in Hc. rewrite Hc. simpl. by rewrite IH.
Qed.

Lemma scan_drop body rest :
  rparen ∉ body →
  sub_parens_scan true (body ++ rparen :: rest) = sub_parens_scan false rest.
Proof.
  induction body as [|c body IH]; simpl.
  - done.
  - intros [Hc Hbody]%not_elem_of_cons.
    apply not_eq_sym, Z.eqb_neq in Hc. rewrite Hc. by apply IH.
Qed.

(** The leftmost span is deleted and the scan goes on after it. *)
Lemma sub_parens_span pre body rest :
  lparen ∉ pre → rparen ∉ body → newline ∉ body →
  sub_parens (pre ++ lparen :: body ++ rparen :: rest) = pre ++ sub_parens rest.
Proof.
  intros Hpre Hbody Hnl. unfold sub_parens.
  rewrite scan_copy, scan_cons_outside by done.
  replace (closes (body ++ rparen :: rest)) with true; [by rewrite scan_drop|].
  symmetry. apply closes_spec. by exists body, rest.
Qed.

Lemma span_free_cons c s : span_free (c :: s) → span_free s.
Proof. intros H a b r ->. by apply (H (c :: a) b r). Qed.

(** Without a span nothing is deleted. *)
Lemma sub_parens_span_free s : span_free s → sub_parens s = s.
Proof.
  unfold sub_parens. induction s as [|c s IH]; [done|]. intros H.
  rewrite scan_cons_outside, IH by by eapply span_free_cons.
  destruct (c =? lparen) eqn:Ec; [|done]. apply Z.eqb_eq in Ec as ->.
  destruct (closes s) eqn:Es; [|done].
  apply closes_spec in Es as (body & rest & -> & _). by destruct (H [] body rest).
Qed.

Lemma check_view_sound line view :
  newline ∉ line → check_view line view → sub_parens line = view.
Proof.
  intros Hnl Hcv. induction Hcv as [s Hs|pre body rest view Hpre Hbody _ IH].
  - by apply sub_parens_span_free.
  - apply not_elem_of_app in Hnl as [_ [_ Hnl]%not_elem_of_cons].
    apply not_elem_of_app in Hnl as [Hb [_ Hnl]%not_elem_of_cons].
    by rewrite sub_parens_span, IH.
Qed.

Lemma first_split_suffix (x : char) pre l a r :
  x ∉ pre → pre ++ x :: l = a ++ x :: r → r `suffix_of` l.
Proof.
  revert a. induction pre as [|p pre IH]; intros [|a0 a] Hx E; simplify_eq/=.
  - done.
  - by exists (a ++ [a0]); rewrite <- app_assoc.
  - by apply not_elem_of_cons in Hx as [? _].
  - apply not_elem_of_cons in Hx as [_ Hx]. by eapply IH.
Qed.

Lemma check_view_complete line :
  newline ∉ line → check_view line (sub_parens line).
Proof.
  remember (length line) as n eqn:Hn. revert line Hn.
  induction (lt_wf n) as [n _ IH]. intros line -> Hnl.
  destruct (decide (lparen ∈ line)) as [Hl|Hl].
  - apply list_elem_of_split_l in Hl as (pre & s & -> & Hpre).
    apply not_elem_of_app in Hnl as [_ [_ Hnl]%not_elem_of_cons].
    destruct (decide (rparen ∈ s)) as [Hr|Hr].
    + apply list_elem_of_split_l in Hr as (body & rest & -> & Hbody).
      apply not_elem_of_app in Hnl as [Hb [_ Hnl]%not_elem_of_cons].
      rewrite sub_parens_span by done. constructor; [done..|].
      eapply IH; [|done..]. rewrite !length_app. simpl. rewrite length_app. simpl. lia.
    + assert (span_free (pre ++ lparen :: s)) as Hfree.
      { intros a b r E. apply first_split_suffix in E as [k ->]; [|done].
        apply Hr. rewrite !elem_of_app. right. right. by left. }
      rewrite sub_parens_span_free by done. by constructor.
  - assert (span_free line) as Hfree.
    { intros a b r ->. apply Hl, elem_of_app. right. by left. }
    rewrite sub_parens_span_free by done. by constructor.
Qed.

(** On a line, what the substitution computes is the check view. *)
Lemma check_view_sub_parens line view :
  newline ∉ line → check_view line view ↔ sub_parens line = view.
Proof.
  intros Hnl. split; [by apply check_view_sound|].
  intros <-. by apply check_view_complete.
Qed.

End detection.

(** * Runs of the detector *)

Section detector_runs.
Implicit Types (w : world) (file_path log_file : string) (content : text).

Lemma bind_run {A B} (m : io A) (f : A → io B) w :
  (m ≫= f) w = match m w with
               | (Ok a, w') => f a w'
               | (Raise e, w') => (Raise e, w')
               end.
Proof. done. Qed.

Lemma logged_all_fields es w :
  files (logged_all es w) = files w
  ∧ faults (logged_all es w) = faults w
  ∧ replacements_json (logged_all es w) = replacements_json w
  ∧ journal (logged_all es w) = journal w ++ es.
Proof.
  revert w. induction es as [|e es IH]; intros w; simpl.
  - by rewrite app_nil_r.
  - destruct (IH (logged e w)) as (-> & -> & -> & ->). simpl.
    by rewrite <- app_assoc.
Qed.

Lemma load_replacements_run w :
  load_replacements w =
  match replacements_json w with
  | StoreMissing | StoreMalformed =>
      (Ok (JObject []), logged CouldNotLoadReplacements w)
  | StoreUnreadable => (Raise OtherException, w)
  | StoreJson j => (Ok j, w)
  end.
Proof.
  unfold load_replacements, try_except, load_json.
  by destruct (replacements_json w).
Qed.

(** The replacement loop touches nothing but the text. *)
Lemma for_each_apply_custom_pure rules content :
  ∃ r, ∀ w, for_each apply_custom rules content w = (r, w).
Proof.
  revert content. induction rules as [|[old [new|]] rules IH]; intros content.
  - by exists (Ok content).
  - destruct (IH (replace old (new ++ [space]) content)) as [r Hr].
    exists r. intros w. simpl. unfold mbind, io_bind, apply_custom. simpl.
    apply Hr.
  - by exists (Raise OtherException).
Qed.

(** What [read_and_replace] returns depends on the document and on the
    replacements file only, and all it does is log. *)
Lemma read_and_replace_pure file_path node store :
  ∃ r es, ∀ w,
    files w !! file_path = node → replacements_json w = store →
    read_and_replace file_path w = (r, logged_all es w).
Proof.
  unfold read_and_replace, mbind, io_bind, read_file.
  destruct node as [[content|]|].
  2,3: eexists _, []; intros w -> _; reflexivity.
  destruct store as [| | |[rules|]].
  1,2: destruct (for_each_apply_custom_pure [] content) as [r Hr];
       exists r, [CouldNotLoadReplacements]; intros w -> Hs;
       rewrite load_replacements_run, Hs; apply Hr.
  - eexists _, []. intros w -> Hs. by rewrite load_replacements_run, Hs.
  - destruct (for_each_apply_custom_pure rules content) as [r Hr].
    exists r, []. intros w -> Hs. rewrite load_replacements_run, Hs. apply Hr.
  - eexists _, []. intros w -> Hs. by rewrite load_replacements_run, Hs.
Qed.

Lemma read_and_replace_same file_path w1 w2 :
  files w1 !! file_path = files w2 !! file_path →
  replacements_json w1 = replacements_json w2 →
  (read_and_replace file_path w1).1 = (read_and_replace file_path w2).1.
Proof.
  intros Hf Hs.
  destruct (read_and_replace_pure file_path (files w2 !! file_path)
              (replacements_json w2)) as (r & es & H).
  by rewrite !H.
Qed.

(** A read that succeeds found the document. *)
Lemma read_and_replace_Ok file_path w content :
  (read_and_replace file_path w).1 = Ok content →
  ∃ original, files w !! file_path = Some (Text original).
Proof.
  unfold read_and_replace, mbind, io_bind, read_file.
  destruct (files w !! file_path) as [[original|]|]; [by eexists|done..].
Qed.

Lemma check_languages_missing file_path log_file w :
  files w !! file_path = None →
  check_languages file_path log_file w
  = (Ok (), logged_all [StartingCheck file_path; FileNotFound file_path] w).
Proof.
  intros H. unfold check_languages, mbind, io_bind, log, path_exists.
  cbn [files logged]. rewrite H.
  rewrite bool_decide_eq_false_2; [done|]. by intros [? ?].
Qed.

(** [check_languages] on a path that exists, stage by stage. *)
Lemma check_languages_run file_path log_file w :
  is_Some (files w !! file_path) →
  ∃ es, let w1 := logged_all (StartingCheck file_path :: es) w in
    check_languages file_path log_file w =
    match (read_and_replace file_path w).1 with
    | Raise _ => (Ok (), logged ErrorOccurred w1)
    | Ok content =>
        match write_file file_path content w1 with
        | (Raise _, w2) => (Ok (), logged ErrorOccurred w2)
        | (Ok _, w2) =>
            let final_lines := split_lines content in
            match write_file log_file (findings_text final_lines)
                             (logged ContentModified w2) with
            | (Raise _, w3) => (Ok (), logged ErrorOccurred w3)
            | (Ok _, w3) =>
                (Ok (), logged (if existsb is_finding final_lines
                                then CheckFinished log_file
                                else NoLanguageFound) w3)
            end
        end
    end.
Proof.
  intros Hex.
  destruct (read_and_replace_pure file_path (files w !! file_path)
              (replacements_json w)) as (r & es & H).
  exists es. cbn zeta. rewrite (H w) by done.
  unfold check_languages, try_except, mbind, io_bind, log, path_exists, mret, io_ret.
  cbn [files logged]. rewrite bool_decide_eq_true_2 by done. cbn [negb].
  rewrite (H (logged (StartingCheck file_path) w)) by done.
  cbn [fst logged_all fold_left]. destruct r as [content|e]; [|done].
  destruct (write_file file_path content _) as [[[]|e] w2]; [|done].
  destruct (write_file log_file _ _) as [[[]|e] w3]; [|done].
  by destruct (existsb is_finding (split_lines content)).
Qed.

Lemma writes_succeed_tail w :
  writes_succeed w →
  (head (faults w) = None ∨ head (faults w) = Some None)
  ∧ Forall (λ f, f = None) (tail (faults w)).
Proof.
  unfold writes_succeed. destruct (faults w) as [|f fs]; [by split; [left|]|].
  intros [-> H]%Forall_cons. split; [by right|done].
Qed.

Lemma write_file_ok path content w :
  writes_succeed w →
  ∃ w', write_file path content w = (Ok (), w')
        ∧ files w' = <[path := Text content]> (files w)
        ∧ replacements_json w' = replacements_json w
        ∧ journal w' = journal w
        ∧ writes_succeed w'.
Proof.
  intros [Hh Ht]%writes_succeed_tail. unfold write_file.
  destruct Hh as [-> | ->]; by eexists.
Qed.

Lemma writes_succeed_logged_all es w :
  writes_succeed w → writes_succeed (logged_all es w).
Proof.
  unfold writes_succeed. by destruct (logged_all_fields es w) as (_ & -> & _).
Qed.

(** A scan in which nothing fails: both files are written in full. *)
Lemma check_languages_ok file_path log_file w content :
  (read_and_replace file_path w).1 = Ok content →
  writes_succeed w →
  ∃ w', check_languages file_path log_file w = (Ok (), w')
        ∧ files w' = <[log_file := Text (findings_text (split_lines content))]>
                       (<[file_path := Text content]> (files w))
        ∧ replacements_json w' = replacements_json w
        ∧ writes_succeed w'.
Proof.
  intros Hread Hw.
  destruct (read_and_replace_Ok _ _ _ Hread) as [original Hdoc].
  destruct (check_languages_run file_path log_file w) as [es Hrun]; [by eexists|].
  cbn zeta in Hrun. rewrite Hread in Hrun. rewrite Hrun. clear Hrun.
  destruct (write_file_ok file_path content
              (logged_all (StartingCheck file_path :: es) w))
    as (w2 & -> & F2 & J2 & _ & S2); [by apply writes_succeed_logged_all|].
  destruct (write_file_ok log_file (findings_text (split_lines content))
              (logged ContentModified w2))
    as (w3 & -> & F3 & J3 & _ & S3); [done|].
  destruct (logged_all_fields (StartingCheck file_path :: es) w) as (F1 & _ & J1 & _).
  eexists. split; [reflexivity|]. cbn [files replacements_json logged] in *.
  split_and!; [|congruence|done]. by rewrite F3, F2, F1.
Qed.

(** A scan in which reading or replacing raises writes nothing. *)
Lemma check_languages_raise file_path log_file w e :
  is_Some (files w !! file_path) →
  (read_and_replace file_path w).1 = Raise e →
  ∃ w', check_languages file_path log_file w = (Ok (), w')
        ∧ files w' = files w ∧ faults w' = faults w
        ∧ replacements_json w' = replacements_json w.
Proof.
  intros Hex Hread.
  destruct (check_languages_run file_path log_file w) as [es Hrun]; [done|].
  cbn zeta in Hrun. rewrite Hread in Hrun. rewrite Hrun.
  destruct (logged_all_fields (StartingCheck file_path :: es) w) as (F1 & G1 & J1 & _).
  eexists. split; [reflexivity|]. by cbn [files faults replacements_json logged].
Qed.

Lemma findings_text_filter (final_lines : list text) :
  findings_text final_lines
  = flat_map (λ line, strip line ++ [newline]) (List.filter is_finding final_lines).
Proof.
  unfold findings_text. induction final_lines as [|line ls IH]; simpl; [done|].
  destruct (is_finding line); simpl; by rewrite IH.
Qed.

(** A write that meets a fault raises; the file is untouched if opening
    failed, and otherwise holds what was written before the error. *)
Lemma write_file_fault path content w fault rest :
  faults w = Some fault :: rest →
  write_file path content w
  = (Raise OtherException,
     World match fault with
           | OpenFails => files w
           | WriteFails written => <[path := Text (take written content)]> (files w)
           end
           (replacements_json w) rest (journal w)).
Proof. intros H. unfold write_file. rewrite H. by destruct fault. Qed.

Lemma findings_text_none (final_lines : list text) :
  existsb is_finding final_lines = false → findings_text final_lines = [].
Proof.
  unfold findings_text. induction final_lines as [|line ls IH]; simpl; [done|].
  intros [-> H]%orb_false_iff. by apply IH.
Qed.

Lemma path_exists_false path w :
  (path_exists path w).1 = Ok false ↔ files w !! path = None.
Proof.
  unfold path_exists. cbn [fst]. split.
  - intros [= H]. apply bool_decide_eq_false in H.
    destruct (files w !! path) eqn:E; [|done]. destruct H. by eexists.
  - by intros ->.
Qed.

Lemma path_exists_true path w :
  (path_exists path w).1 = Ok true ↔ is_Some (files w !! path).
Proof.
  unfold path_exists. cbn [fst]. split.
  - intros [= H]. by apply bool_decide_eq_true in H.
  - intros H. f_equal. by apply bool_decide_eq_true.
Qed.

(** A scan whose document is written back opens the findings log: a second
    write is attempted, and what the log holds afterwards is decided by the
    fate of that write. *)
Lemma check_languages_log_opened file_path log_file w content :
  (read_and_replace file_path w).1 = Ok content →
  head (faults w) = None ∨ head (faults w) = Some None →
  ∃ w', check_languages file_path log_file w = (Ok (), w')
        ∧ faults w' = tail (tail (faults w))
        ∧ files w' =
          match head (tail (faults w)) with
          | None | Some None =>
              <[log_file := Text (findings_text (split_lines content))]>
                (<[file_path := Text content]> (files w))
          | Some (Some OpenFails) => <[file_path := Text content]> (files w)
          | Some (Some (WriteFails written)) =>
              <[log_file := Text (take written (findings_text (split_lines content)))]>
                (<[file_path := Text content]> (files w))
          end.
Proof.
  intros Hread Hhead.
  destruct (read_and_replace_Ok _ _ _ Hread) as [original Hdoc].
  destruct (check_languages_run file_path log_file w) as [es Hrun]; [by eexists|].
  cbn zeta in Hrun. rewrite Hread in Hrun. rewrite Hrun. clear Hrun.
  destruct (logged_all_fields (StartingCheck file_path :: es) w) as (F1 & G1 & _).
  unfold write_file. cbn [faults files logged]. rewrite G1, F1.
  destruct Hhead as [-> | ->]; cbn [faults files logged];
    destruct (head (tail (faults w))) as [[[|written]|]|];
    by eexists.
Qed.

(** A scan whose write of the document fails stops there: the findings log
    is not opened. *)
Lemma check_languages_document_write_fails file_path log_file w content fault rest :
  (read_and_replace file_path w).1 = Ok content →
  faults w = Some fault :: rest →
  ∃ w', check_languages file_path log_file w = (Ok (), w')
        ∧ faults w' = rest
        ∧ files w' = match fault with
                     | OpenFails => files w
                     | WriteFails written =>
                         <[file_path := Text (take written content)]> (files w)
                     end.
Proof.
  intros Hread Hfault.
  destruct (read_and_replace_Ok _ _ _ Hread) as [original Hdoc].
  destruct (check_languages_run file_path log_file w) as [es Hrun]; [by eexists|].
  cbn zeta in Hrun. rewrite Hread in Hrun. rewrite Hrun. clear Hrun.
  destruct (logged_all_fields (StartingCheck file_path :: es) w)
    as (F1 & G1 & J1 & _).
  erewrite write_file_fault by (by rewrite G1).
  eexists. split; [reflexivity|]. cbn [files faults journal logged]. by rewrite F1.
Qed.

End detector_runs.

(** * Properties of the Log Reader and the Pair Builder *)

(** C8.  Whatever the path, [parse_log] returns and does not raise, and it
    writes no file.  For a file that holds text it returns, in file order,
    the lines of the file with the whitespace at both ends removed, leaving
    out the lines that are then empty; for a path that does not exist or
    cannot be read it returns the empty list and logs a warning or an error.
    Trimming a line removes a run of whitespace characters at each end, keeps
    what is between them, and leaves no whitespace character first or last. *)
Theorem parse_log_trimmed_lines (file_path : string) (w : world) :
  ∃ lines w',
    run (parse_log file_path) w = (Ok lines, w')
    ∧ files w' = files w
    ∧ lines = match files w !! file_path with
              | Some (Text content) =>
                  List.filter truthy (map strip (split_lines content))
              | Some Opaque | None => []
              end
    ∧ journal w' = journal w ++ match files w !! file_path with
                                | Some (Text content) => []
                                | Some Opaque => [ParserError file_path]
                                | None => [ParserNotFound file_path]
                                end
    ∧ ∀ line, ∃ l r,
        line = l ++ strip line ++ r
        ∧ Forall (λ c, isspace c = true) l
        ∧ Forall (λ c, isspace c = true) r
        ∧ (∀ c, head (strip line) = Some c → isspace c = false)
        ∧ (∀ c, last (strip line) = Some c → isspace c = false).
Proof.
  unfold run. rewrite parse_log_run.
  destruct (files w !! file_path) as [[content|]|]; eexists _, _;
    (split; [reflexivity|]); split_and!; try done; try apply strip_trims.
  by rewrite app_nil_r.
Qed.

(** C1.  With [findings] and [corrected] the line sequences [parse_log]
    reads from the two logs, [create_replacement_map] returns [None] if one
    of them is empty.  Otherwise it returns a dictionary that maps [k] to [v]
    exactly when, for some [i] below both lengths, the [i]-th finding is [k]
    and the [i]-th corrected line is [v], and no later finding that still has
    a corrected line is [k]: the pairs are made position by position up to
    the shorter length, and a later pair with the same finding replaces the
    value of an earlier one.  Its keys are the findings that have a corrected
    line, each once, in the order of their first occurrence.  No file is
    written. *)
Theorem create_replacement_map_pairs
    (proof_log_path translated_log_path : string) (w : world)
    (findings corrected : list text) :
  (run (parse_log proof_log_path) w).1 = Ok findings →
  (run (parse_log translated_log_path) w).1 = Ok corrected →
  ∃ replacements w',
    run (create_replacement_map proof_log_path translated_log_path) w
    = (Ok replacements, w')
    ∧ files w' = files w
    ∧ match replacements with
      | None => findings = [] ∨ corrected = []
      | Some d =>
          findings ≠ [] ∧ corrected ≠ []
          ∧ (∀ k v, dict_get d k = Some v ↔ paired findings corrected k v)
          ∧ keys d = first_occurrences (take (length corrected) findings)
          ∧ NoDup (keys d)
      end.
Proof.
  unfold run. intros Hf Hc.
  destruct (create_replacement_map_run _ _ _ _ _ Hf Hc) as (w' & Hw & _ & _ & ->).
  destruct findings as [|f findings].
  { eexists _, _. split; [reflexivity|]. split; [done|]. by left. }
  destruct corrected as [|c corrected].
  { eexists _, _. split; [reflexivity|]. split; [done|]. by right. }
  eexists _, _. split; [reflexivity|]. split; [done|].
  split_and!; [done|done| | |apply dict_of_pairs_NoDup].
  - intros k v. by rewrite dict_of_pairs_get, last_pair_zip.
  - by rewrite dict_of_pairs_keys, fst_zip_take.
Qed.

Lemma create_replacement_map_pairs_witness :
  ∃ replacements w',
    run (create_replacement_map "language_proof.log" "language_proof_translated.log")
        Sample.uneven_logs
    = (Ok replacements, w')
    ∧ files w' = files Sample.uneven_logs
    ∧ match replacements with
      | None => [lit "A"; lit "B"; lit "A"; lit "C"] = []
                ∨ [lit "A2"; lit "B2"; lit "A3"] = []
      | Some d =>
          [lit "A"; lit "B"; lit "A"; lit "C"] ≠ []
          ∧ [lit "A2"; lit "B2"; lit "A3"] ≠ []
          ∧ (∀ k v, dict_get d k = Some v
                    ↔ paired [lit "A"; lit "B"; lit "A"; lit "C"]
                             [lit "A2"; lit "B2"; lit "A3"] k v)
          ∧ keys d = first_occurrences
                       (take (length [lit "A2"; lit "B2"; lit "A3"])
                             [lit "A"; lit "B"; lit "A"; lit "C"])
          ∧ NoDup (keys d)
      end.
Proof.
  apply (create_replacement_map_pairs
           "language_proof.log" "language_proof_translated.log" Sample.uneven_logs
           [lit "A"; lit "B"; lit "A"; lit "C"] [lit "A2"; lit "B2"; lit "A3"]).
  - vm_compute. reflexivity.
  - vm_compute. reflexivity.
Defined.

(** * Properties of the Substitution Engine *)

(** C2.  If no pattern of the replacement map occurs in the text of the
    target document, the replacement loop ends with the text as it was and
    with [modified_count = 0]; and [main], when this is the map built from
    the logs and the text read from the target, writes nothing (the files are
    as before and no write was attempted) and reports "No changes were made"
    rather than a successful modification. *)
Theorem main_no_occurrence_no_change (d : dict) (original : text) :
  (∀ old new, (old, new) ∈ d → ¬ occurs old original) →
  apply_rules d original = (original, O)
  ∧ ∀ proof_log translated_log target_file w,
      (run (create_replacement_map proof_log translated_log) w).1 = Ok (Some d) →
      files w !! target_file = Some (Text original) →
      ∃ w', run (main proof_log translated_log target_file) w = (Ok (), w')
            ∧ files w' = files w
            ∧ faults w' = faults w
            ∧ journal w' = journal w ++
                [ScriptStarted; TargetFile target_file; ParsingLogs;
                 ReadingTarget target_file; StartingReplacement;
                 FoundRules (length d); NoChangesMade; ScriptFinished].
Proof.
  intros Habsent.
  assert (apply_rules d original = (original, O)) as Hloop.
  { apply apply_rules_absent. intros old new Hin.
    by apply contains_false, (Habsent old new). }
  split; [done|]. intros proof_log translated_log target_file w Hmap Htarget.
  unfold run in *. rewrite (main_run _ _ _ _ d original) by done.
  cbn zeta. rewrite Hloop. cbn [fst snd]. rewrite decide_True by done.
  eexists. split; [reflexivity|]. cbn. by rewrite <- !app_assoc.
Qed.

Lemma main_no_occurrence_no_change_witness :
  apply_rules [(lit "foo", lit "bar"); (lit "bar", lit "baz")] (lit "quux")
  = (lit "quux", O)
  ∧ ∃ w', run (main "language_proof.log" "language_proof_translated.log" "doc.txt")
              Sample.untouched = (Ok (), w')
          ∧ files w' = files Sample.untouched
          ∧ faults w' = faults Sample.untouched
          ∧ journal w' =
              [ScriptStarted; TargetFile "doc.txt"; ParsingLogs;
               ReadingTarget "doc.txt"; StartingReplacement;
               FoundRules 2; NoChangesMade; ScriptFinished].
Proof.
  assert (∀ old new,
            (old, new) ∈ [(lit "foo", lit "bar"); (lit "bar", lit "baz")] →
            ¬ occurs old (lit "quux")) as Habsent.
  { intros old new Hin. apply contains_false.
    repeat (apply elem_of_cons in Hin as [[= -> ->]|Hin]; [vm_compute; reflexivity|]).
    by apply not_elem_of_nil in Hin. }
  destruct (main_no_occurrence_no_change _ _ Habsent) as [Hloop Hmain].
  split; [exact Hloop|].
  apply (Hmain "language_proof.log" "language_proof_translated.log" "doc.txt"
               Sample.untouched).
  - vm_compute. reflexivity.
  - vm_compute. reflexivity.
Defined.

(** C3.  The rules are applied one after the other, in the order of the
    map, each to the text the rules before it have produced; so a rule can
    match text that an earlier rule has put there.  With the text [foo] and
    the rules [foo -> bar], [bar -> baz] in this order the result is [baz],
    both rules having fired; and [main] run on logs that give these rules
    leaves [baz] in the target document. *)
Theorem substitution_cascades :
  (∀ old new d content,
     apply_rules ((old, new) :: d) content
     = if contains old content
       then ((apply_rules d (replace old new content)).1,
             S (apply_rules d (replace old new content)).2)
       else apply_rules d content)
  ∧ apply_rules [(lit "foo", lit "bar"); (lit "bar", lit "baz")] (lit "foo")
    = (lit "baz", 2%nat)
  ∧ (run (create_replacement_map "language_proof.log" "language_proof_translated.log")
         Sample.cascade).1
    = Ok (Some [(lit "foo", lit "bar"); (lit "bar", lit "baz")])
  ∧ files (run (main "language_proof.log" "language_proof_translated.log" "doc.txt")
               Sample.cascade).2 !! "doc.txt"
    = Some (Text (lit "baz")).
Proof.
  split; [apply apply_rules_cons|]. split_and!; by vm_compute.
Qed.

(** C7.  [modified_count] starts at 0; a rule whose pattern occurs in the
    text as it is when the rule is reached replaces the text by the result of
    [replace] and adds exactly one to the count, however many occurrences
    there are; a rule whose pattern does not occur changes neither the text
    nor the count.  [replace] changes nothing where the pattern does not
    occur, and otherwise replaces the leftmost occurrence and goes on with
    the text after that occurrence, so that every occurrence that does not
    overlap an occurrence already replaced is replaced.  For instance the
    rule [X -> YY] turns [aXbXc] into [aYYbYYc] and counts once. *)
Theorem modified_count_once_per_rule :
  (∀ content, apply_rules [] content = (content, O))
  ∧ (∀ old new d content,
       occurs old content →
       apply_rules ((old, new) :: d) content
       = ((apply_rules d (replace old new content)).1,
          S (apply_rules d (replace old new content)).2))
  ∧ (∀ old new d content,
       ¬ occurs old content →
       apply_rules ((old, new) :: d) content = apply_rules d content)
  ∧ (∀ old new s, ¬ occurs old s → replace old new s = s)
  ∧ (∀ old new pre post,
       old ≠ [] → first_occurs_at old pre (pre ++ old ++ post) →
       replace old new (pre ++ old ++ post) = pre ++ new ++ replace old new post)
  ∧ apply_rules [(lit "X", lit "YY")] (lit "aXbXc") = (lit "aYYbYYc", 1%nat).
Proof.
  split_and!.
  - apply apply_rules_nil.
  - intros old new d content H%contains_spec. by rewrite apply_rules_cons, H.
  - intros old new d content H%contains_false. by rewrite apply_rules_cons, H.
  - intros old new s H%contains_false. by apply replace_absent.
  - apply replace_first.
  - by vm_compute.
Qed.

Lemma modified_count_once_per_rule_witness :
  apply_rules [(lit "X", lit "YY"); (lit "Z", lit "W")] (lit "aXbXc")
  = ((apply_rules [(lit "Z", lit "W")] (replace (lit "X") (lit "YY") (lit "aXbXc"))).1,
     S (apply_rules [(lit "Z", lit "W")] (replace (lit "X") (lit "YY") (lit "aXbXc"))).2)
  ∧ apply_rules [(lit "Z", lit "W")] (lit "aYYbYYc") = apply_rules [] (lit "aYYbYYc")
  ∧ replace (lit "X") (lit "YY") (lit "a" ++ lit "X" ++ lit "bXc")
    = lit "a" ++ lit "YY" ++ replace (lit "X") (lit "YY") (lit "bXc").
Proof.
  destruct modified_count_once_per_rule as (_ & Hfire & Hskip & _ & Hfirst & _).
  split_and!.
  - apply Hfire. apply contains_spec. vm_compute. reflexivity.
  - apply Hskip. apply contains_false. vm_compute. reflexivity.
  - apply Hfirst; [done|]. split.
    + by exists (lit "bXc").
    + intros [|c pre'] [post E]; [by vm_compute in E|simpl; lia].
Defined.

(** * Properties of the Script Detector *)

(** C4.  A line of the scanned text is flagged if and only if its check
    view (the line with its parenthesised spans deleted, each span running
    from a [(] to the nearest [)] after it) holds a character of the
    Hiragana and Katakana ranges or of the CJK Unified Ideographs range.
    The line [hello (日本語) world] is not flagged and the line
    [hello 日本語 world] is; scanning a document with both, the findings log
    holds the second and not the first. *)
Theorem finding_iff_script_outside_parentheses :
  (∀ content line,
     line ∈ split_lines content →
     is_finding line = true
     ↔ ∃ view c, check_view line view ∧ c ∈ view ∧ (kana c ∨ cjk c))
  ∧ is_finding Sample.exempt_line = false
  ∧ is_finding Sample.flagged_line = true
  ∧ files (run (check_languages "doc.txt" "language_check.log") Sample.scanned).2
      !! "language_check.log"
    = Some (Text (Sample.unlines [Sample.flagged_line; Sample.nihongo ++ lit " da"])).
Proof.
  split_and!; [|by vm_compute..].
  intros content line Hnl%split_lines_no_newline. rewrite is_finding_spec. split.
  - intros (c & Hc & Hscript). exists (sub_parens line), c.
    split_and!; [by apply check_view_sub_parens|done..].
  - intros (view & c & Hview%check_view_sub_parens & Hc & Hscript); [|done].
    exists c. by rewrite Hview.
Qed.

Lemma finding_iff_script_outside_parentheses_witness :
  is_finding Sample.flagged_line = true
  ↔ ∃ view c, check_view Sample.flagged_line view ∧ c ∈ view ∧ (kana c ∨ cjk c).
Proof.
  apply (proj1 finding_iff_script_outside_parentheses Sample.scanned_rewritten).
  vm_compute. right. left.
Defined.

(** C5, as the code has it.  In a scan in which nothing fails, the findings
    log holds, for each flagged line of the rewritten text in document
    order, the line with the whitespace at both ends removed, followed by a
    newline.  Trimming removes a run of whitespace characters at the start
    of the line as well as one at its end, keeps what is between them, and
    leaves no whitespace character first or last. *)
Theorem findings_log_lines_stripped
    (file_path log_file : string) (w : world) (content : text) :
  (run (read_and_replace file_path) w).1 = Ok content →
  writes_succeed w →
  files (run (check_languages file_path log_file) w).2 !! log_file
  = Some (Text (flat_map (λ line, strip line ++ [newline])
                         (List.filter is_finding (split_lines content))))
  ∧ ∀ line, ∃ l r,
      line = l ++ strip line ++ r
      ∧ Forall (λ c, isspace c = true) l
      ∧ Forall (λ c, isspace c = true) r
      ∧ (∀ c, head (strip line) = Some c → isspace c = false)
      ∧ (∀ c, last (strip line) = Some c → isspace c = false).
Proof.
  unfold run. intros Hread Hw. split.
  - destruct (check_languages_ok file_path log_file w content Hread Hw)
      as (w' & Hrun & Hfiles & _).
    rewrite Hrun. cbn [snd]. by rewrite Hfiles, lookup_insert_eq, findings_text_filter.
  - apply strip_trims.
Qed.

Lemma findings_log_lines_stripped_witness :
  files (run (check_languages "doc.txt" "language_check.log") Sample.scanned).2
    !! "language_check.log"
  = Some (Text (flat_map (λ line, strip line ++ [newline])
                         (List.filter is_finding (split_lines Sample.scanned_rewritten))))
  ∧ ∀ line, ∃ l r,
      line = l ++ strip line ++ r
      ∧ Forall (λ c, isspace c = true) l
      ∧ Forall (λ c, isspace c = true) r
      ∧ (∀ c, head (strip line) = Some c → isspace c = false)
      ∧ (∀ c, last (strip line) = Some c → isspace c = false).
Proof.
  apply (findings_log_lines_stripped "doc.txt" "language_check.log" Sample.scanned
                                     Sample.scanned_rewritten).
  - vm_compute. reflexivity.
  - constructor.
Defined.

(** C5, as stated, fails.  The third line of the sample document is flagged
    and starts with two spaces; it is logged without them, so the log is not
    the one that trimming only the trailing whitespace would give. *)
Lemma findings_log_drops_leading_whitespace :
  files (run (check_languages "doc.txt" "language_check.log") Sample.scanned).2
    !! "doc.txt"
  = Some (Text Sample.scanned_rewritten)
  ∧ files (run (check_languages "doc.txt" "language_check.log") Sample.scanned).2
      !! "language_check.log"
    = Some (Text (Sample.unlines [Sample.flagged_line; Sample.nihongo ++ lit " da"]))
  ∧ trailing_trimmed_log (split_lines Sample.scanned_rewritten)
    = Sample.unlines [Sample.flagged_line; lit "  " ++ Sample.nihongo ++ lit " da"]
  ∧ Sample.unlines [Sample.flagged_line; Sample.nihongo ++ lit " da"]
    ≠ trailing_trimmed_log (split_lines Sample.scanned_rewritten).
Proof. split_and!; by vm_compute. Qed.

(** C10, as the code has it.  If the path of the document does not exist,
    [check_languages] logs that and returns: no file is created or changed
    and no write is attempted.  When the path exists, the findings log is
    opened only once the document has been read, the replacements applied
    and the document written back.  If reading the document or loading or
    applying the replacements raises, no write is attempted and no file is
    changed.  If the write of the document fails, it is the only write
    attempted, and a findings log kept in another file is left as it was.
    If the document is written back, a second write is attempted, on the
    findings log: the log then holds the findings of this scan, and the
    empty text when there is none, unless that write fails; it keeps what it
    held if it cannot be opened, and holds the part written before the error
    otherwise. *)
Theorem check_languages_missing_document_writes_nothing :
  (∀ file_path log_file w,
     (run (path_exists file_path) w).1 = Ok false →
     ∃ w', run (check_languages file_path log_file) w = (Ok (), w')
           ∧ files w' = files w
           ∧ faults w' = faults w
           ∧ journal w' = journal w ++ [StartingCheck file_path; FileNotFound file_path])
  ∧ (∀ file_path log_file w e,
       (run (path_exists file_path) w).1 = Ok true →
       (run (read_and_replace file_path) w).1 = Raise e →
       ∃ w', run (check_languages file_path log_file) w = (Ok (), w')
             ∧ files w' = files w
             ∧ faults w' = faults w
             ∧ last (journal w') = Some ErrorOccurred)
  ∧ (∀ file_path log_file w content fault rest,
       (run (read_and_replace file_path) w).1 = Ok content →
       faults w = Some fault :: rest →
       faults (run (check_languages file_path log_file) w).2 = rest
       ∧ (log_file ≠ file_path →
          files (run (check_languages file_path log_file) w).2 !! log_file
          = files w !! log_file))
  ∧ (∀ file_path log_file w content,
       (run (read_and_replace file_path) w).1 = Ok content →
       head (faults w) = None ∨ head (faults w) = Some None →
       faults (run (check_languages file_path log_file) w).2 = tail (tail (faults w))
       ∧ files (run (check_languages file_path log_file) w).2 !! log_file
         = match head (tail (faults w)) with
           | None | Some None => Some (Text (findings_text (split_lines content)))
           | Some (Some OpenFails) =>
               <[file_path := Text content]> (files w) !! log_file
           | Some (Some (WriteFails written)) =>
               Some (Text (take written (findings_text (split_lines content))))
           end
       ∧ (existsb is_finding (split_lines content) = false →
          head (tail (faults w)) = None ∨ head (tail (faults w)) = Some None →
          files (run (check_languages file_path log_file) w).2 !! log_file
          = Some (Text []))).
Proof.
  unfold run. split_and!.
  - intros file_path log_file w Hnone%path_exists_false.
    rewrite check_languages_missing by done. eexists. split; [reflexivity|].
    by destruct (logged_all_fields [StartingCheck file_path; FileNotFound file_path] w)
      as (-> & -> & _ & ->).
  - intros file_path log_file w e Hex%path_exists_true Hread.
    destruct (check_languages_run file_path log_file w) as [es Hrun]; [done|].
    cbn zeta in Hrun. rewrite Hread in Hrun. rewrite Hrun.
    destruct (logged_all_fields (StartingCheck file_path :: es) w) as (F1 & G1 & _).
    eexists. split; [reflexivity|]. cbn [files faults journal logged].
    split_and!; [done..|apply last_snoc].
  - intros file_path log_file w content fault rest Hread Hfault.
    destruct (check_languages_document_write_fails _ log_file _ _ _ _ Hread Hfault)
      as (w' & -> & G & F).
    cbn [snd]. split; [done|]. intros Hne. rewrite F.
    destruct fault; [done|]. by rewrite lookup_insert_ne.
  - intros file_path log_file w content Hread Hhead.
    destruct (check_languages_log_opened _ log_file _ _ Hread Hhead)
      as (w' & -> & G & F).
    cbn [snd]. rewrite F. split; [done|]. split.
    + destruct (head (tail (faults w))) as [[[|written]|]|];
        by rewrite ?lookup_insert_eq.
    + intros Hnone [-> | ->]; by rewrite lookup_insert_eq, findings_text_none.
Qed.

Lemma check_languages_missing_document_writes_nothing_witness :
  (∃ w', run (check_languages "doc.txt" "language_check.log") Sample.no_document
         = (Ok (), w')
         ∧ files w' = files Sample.no_document
         ∧ faults w' = faults Sample.no_document
         ∧ journal w' = journal Sample.no_document
                        ++ [StartingCheck "doc.txt"; FileNotFound "doc.txt"])
  ∧ (∃ w', run (check_languages "doc.txt" "language_check.log") Sample.number_rule
           = (Ok (), w')
           ∧ files w' = files Sample.number_rule
           ∧ faults w' = faults Sample.number_rule
           ∧ last (journal w') = Some ErrorOccurred)
  ∧ faults (run (check_languages "doc.txt" "language_check.log")
                Sample.scanned_disk_full).2 = []
  ∧ files (run (check_languages "doc.txt" "language_check.log")
               Sample.log_unwritable).2 !! "language_check.log"
    = <["doc.txt" := Text (Sample.unlines [Sample.exempt_line; lit "hello world"])]>
        (files Sample.log_unwritable) !! "language_check.log"
  ∧ files (run (check_languages "doc.txt" "language_check.log")
               Sample.clean_document).2 !! "language_check.log"
    = Some (Text []).
Proof.
  destruct check_languages_missing_document_writes_nothing
    as (Hmissing & Hraise & Hdocument & Hlog).
  split_and!.
  - apply Hmissing. vm_compute. reflexivity.
  - apply (Hraise "doc.txt" "language_check.log" Sample.number_rule OtherException).
    + vm_compute. reflexivity.
    + vm_compute. reflexivity.
  - apply (Hdocument "doc.txt" "language_check.log" Sample.scanned_disk_full
                     Sample.scanned_rewritten (WriteFails 3) []).
    + vm_compute. reflexivity.
    + reflexivity.
  - apply (Hlog "doc.txt" "language_check.log" Sample.log_unwritable
                (Sample.unlines [Sample.exempt_line; lit "hello world"])).
    + vm_compute. reflexivity.
    + right. reflexivity.
  - apply (Hlog "doc.txt" "language_check.log" Sample.clean_document
                (Sample.unlines [Sample.exempt_line; lit "hello world"])).
    + vm_compute. reflexivity.
    + left. reflexivity.
    + vm_compute. reflexivity.
    + left. reflexivity.
Defined.

(** C10, as stated, fails.  The document exists but is not UTF-8 text:
    reading it raises, the exception is caught, and the scan returns without
    opening the findings log, which keeps the findings of an earlier scan.
    The same happens with a document that is read, when a value of the
    replacements file is not a string: no write is attempted. *)
Lemma findings_log_kept_when_scan_raises :
  (is_Some (files Sample.undecodable !! "doc.txt")
   ∧ run (check_languages "doc.txt" "language_check.log") Sample.undecodable
     = (Ok (), logged_all [StartingCheck "doc.txt"; ErrorOccurred] Sample.undecodable)
   ∧ files (logged_all [StartingCheck "doc.txt"; ErrorOccurred] Sample.undecodable)
       !! "language_check.log"
     = Some (Text (Sample.unlines [Sample.flagged_line]))
   ∧ faults (logged_all [StartingCheck "doc.txt"; ErrorOccurred] Sample.undecodable)
     = [None; None])
  ∧ (files Sample.number_rule !! "doc.txt" = Some (Text (lit "hello world"))
     ∧ run (check_languages "doc.txt" "language_check.log") Sample.number_rule
       = (Ok (), logged_all [StartingCheck "doc.txt"; ErrorOccurred] Sample.number_rule)
     ∧ files (logged_all [StartingCheck "doc.txt"; ErrorOccurred] Sample.number_rule)
         !! "language_check.log"
       = Some (Text (Sample.unlines [Sample.flagged_line]))
     ∧ faults (logged_all [StartingCheck "doc.txt"; ErrorOccurred] Sample.number_rule)
       = [None; None]).
Proof. split_and!; [by eexists|by vm_compute..]. Qed.

(** * Writes that fail *)




(** * Scanning again *)

Section rescan.
Implicit Types (c : char) (s line : text) (w : world).

Lemma isspace_not_script c : isspace c = true → ¬ (kana c ∨ cjk c).
Proof.
  unfold isspace, between, kana, cjk.
  rewrite !orb_true_iff, !andb_true_iff, !Z.leb_le, !Z.eqb_eq. lia.
Qed.

Lemma closes_app_no_rparen s tl : rparen ∉ tl → closes (s ++ tl) = closes s.
Proof.
  intros Htl. induction s as [|c s IH]; simpl.
  - destruct (closes tl) eqn:E; [|done].
    apply closes_spec in E as (body & rest & -> & _).
    destruct Htl. apply elem_of_app. right. by left.
  - by rewrite IH.
Qed.

(** Characters after the last span that are not parentheses are copied. *)
Lemma scan_app_tail inside s tl :
  lparen ∉ tl → rparen ∉ tl →
  (inside = true → closes s = true) →
  sub_parens_scan inside (s ++ tl) = sub_parens_scan inside s ++ tl.
Proof.
  intros Hl Hr. revert inside. induction s as [|c s IH]; intros inside Hin.
  - destruct inside; [by specialize (Hin eq_refl)|].
    simpl. rewrite <- (app_nil_r tl) at 1. rewrite scan_copy by done.
    simpl. by rewrite app_nil_r.
  - simpl. destruct inside.
    + specialize (Hin eq_refl). simpl in Hin. apply IH.
      destruct (c =? rparen); simpl in *; [done|].
      intros _. by apply andb_true_iff in Hin as [_ ?].
    + rewrite closes_app_no_rparen by done.
      destruct ((c =? lparen) && closes s) eqn:E.
      * apply IH. intros _. by apply andb_true_iff in E as [_ ?].
      * simpl. f_equal. by apply IH.
Qed.

Lemma sub_parens_trim l s r :
  Forall (λ c, isspace c = true) l → Forall (λ c, isspace c = true) r →
  sub_parens (l ++ s ++ r) = l ++ sub_parens s ++ r.
Proof.
  intros Hl Hr. unfold sub_parens.
  assert (∀ x ws, Forall (λ c, isspace c = true) ws → x ∈ ws → isspace x = true)
    as Hin by (intros x ws Hws; rewrite Forall_forall in Hws; apply Hws).
  rewrite scan_copy, scan_app_tail; [done| | |done|].
  - intros H%(Hin _ _ Hr). vm_compute in H. discriminate.
  - intros H%(Hin _ _ Hr). vm_compute in H. discriminate.
  - intros H%(Hin _ _ Hl). vm_compute in H. discriminate.
Qed.

(** Trimming a line does not change whether it is flagged. *)
Lemma is_finding_strip line : is_finding (strip line) = is_finding line.
Proof.
  destruct (strip_split line) as (l & r & E & Hl & Hr).
  assert (sub_parens line = l ++ sub_parens (strip line) ++ r) as Hsub.
  { rewrite E at 1. by apply sub_parens_trim. }
  apply eq_true_iff_eq. rewrite !is_finding_spec, Hsub.
  split; intros (c & Hc & Hscript); exists c; (split; [|done]).
  - rewrite !elem_of_app. right. by left.
  - rewrite !elem_of_app in Hc. destruct Hc as [Hc|[Hc|Hc]]; [|done|].
    + destruct (isspace_not_script c); [|done]. by eapply Forall_forall in Hl.
    + destruct (isspace_not_script c); [|done]. by eapply Forall_forall in Hr.
Qed.

Lemma strip_no_newline line : newline ∉ line → newline ∉ strip line.
Proof.
  destruct (strip_split line) as (l & r & E & _). intros H Hin. apply H.
  rewrite E, !elem_of_app. right. by left.
Qed.

Lemma split_lines_first line s :
  newline ∉ line → split_lines (line ++ newline :: s) = line :: split_lines s.
Proof.
  induction line as [|c line IH]; [done|].
  intros [Hc Hline]%not_elem_of_cons. simpl.
  apply not_eq_sym, Z.eqb_neq in Hc. by rewrite Hc, IH.
Qed.

Lemma split_lines_line line s :
  newline ∉ line → split_lines ((line ++ [newline]) ++ s) = line :: split_lines s.
Proof. intros H. rewrite <- app_assoc. by apply split_lines_first. Qed.

(** The findings of a findings log are the log itself. *)
Lemma findings_text_idemp content :
  findings_text (split_lines (findings_text (split_lines content)))
  = findings_text (split_lines content).
Proof.
  pose proof (split_lines_no_newline content) as Hnl.
  rewrite (findings_text_filter (split_lines content)).
  induction (split_lines content) as [|line ls IH]; [done|].
  assert (newline ∉ line) as Hline by (apply Hnl; by left).
  assert (∀ line, line ∈ ls → newline ∉ line) as Hls
    by (intros ??; apply Hnl; by right).
  cbn [List.filter]. destruct (is_finding line) eqn:E; [|by apply IH].
  cbn [flat_map]. rewrite split_lines_line by by apply strip_no_newline.
  unfold findings_text at 1. cbn [flat_map].
  rewrite is_finding_strip, E, strip_idemp. f_equal. by apply IH.
Qed.

Lemma for_each_custom_strings rules content content' w :
  (for_each apply_custom rules content w).1 = Ok content' →
  Forall (λ rule, ∃ new, rule.2 = JString new) rules.
Proof.
  revert content. induction rules as [|[old [new|]] rules IH]; intros content.
  - by constructor.
  - simpl. rewrite bind_run. intros H%IH. constructor; [by eexists|done].
  - done.
Qed.

(** Rules that leave a text as it is leave it so all together. *)
Lemma for_each_custom_fixed rules content w :
  Forall (λ rule, ∃ new, rule.2 = JString new) rules →
  (∀ old new, (old, JString new) ∈ rules →
              replace old (new ++ [space]) content = content) →
  for_each apply_custom rules content w = (Ok content, w).
Proof.
  induction 1 as [|[old v] rules [new Hv] _ IH]; [done|]. intros Hfix.
  simpl in Hv. subst v. simpl. rewrite bind_run. unfold apply_custom. simpl.
  rewrite (Hfix old new) by left. apply IH.
  intros old' new' Hin. apply Hfix. by right.
Qed.

Lemma read_and_replace_again file_path w w' content rewritten :
  (read_and_replace file_path w).1 = Ok content →
  files w' !! file_path = Some (Text rewritten) →
  replacements_json w' = replacements_json w →
  (∀ rules old new,
     replacements_json w = StoreJson (JObject rules) →
     (old, JString new) ∈ rules →
     replace old (new ++ [space]) rewritten = rewritten) →
  (read_and_replace file_path w').1 = Ok rewritten.
Proof.
  unfold read_and_replace. rewrite !bind_run. unfold read_file.
  intros Hread -> Hjson Hfix.
  destruct (files w !! file_path) as [[original|]|]; [|done..].
  rewrite !bind_run, !load_replacements_run, Hjson in *.
  destruct (replacements_json w) as [| | |[rules|]]; try done.
  rewrite !bind_run in *. cbn [items] in *.
  unfold mret at 1, io_ret at 1 in Hread. unfold mret at 1, io_ret at 1.
  apply for_each_custom_strings in Hread.
  rewrite for_each_custom_fixed; [done|done|].
  intros old new. by apply Hfix.
Qed.

End rescan.

(** C9, as the code has it.  Run the detector twice in a row on the same
    document, with the same replacements file and with no write failing.
    If the text that the first run has left in the document holds no
    carriage return, and each configured replacement, applied again as the
    detector applies it (the pattern replaced by the new text and one
    space), changes nothing in that text, then the second run leaves the
    document as the first run left it. *)
Theorem rescan_leaves_document_unchanged
    (file_path log_file : string) (w : world) :
  writes_succeed w →
  (∀ rewritten,
     files (run (check_languages file_path log_file) w).2 !! file_path
     = Some (Text rewritten) →
     carriage_return ∉ rewritten) →
  (∀ rules old new rewritten,
     replacements_json w = StoreJson (JObject rules) →
     (old, JString new) ∈ rules →
     files (run (check_languages file_path log_file) w).2 !! file_path
     = Some (Text rewritten) →
     replace old (new ++ [space]) rewritten = rewritten) →
  files (run (check_languages file_path log_file)
             (run (check_languages file_path log_file) w).2).2 !! file_path
  = files (run (check_languages file_path log_file) w).2 !! file_path.
Proof.
  unfold run. intros Hw _ Hidem.
  destruct (files w !! file_path) as [node|] eqn:Hdoc.
  - destruct (read_and_replace file_path w).1 as [content|e] eqn:Hread.
    + destruct (check_languages_ok file_path log_file w content Hread Hw)
        as (w1 & Hrun1 & Hfiles1 & Hjson1 & Hw1).
      rewrite Hrun1 in *. cbn [snd] in *.
      assert (∃ rewritten, files w1 !! file_path = Some (Text rewritten)
                ∧ (log_file = file_path →
                   rewritten = findings_text (split_lines content)))
        as (rewritten & Hdoc1 & Halias).
      { rewrite Hfiles1. destruct (decide (log_file = file_path)) as [->|Hne].
        - rewrite lookup_insert_eq. by eexists.
        - rewrite lookup_insert_ne, lookup_insert_eq by done. by eexists. }
      assert ((read_and_replace file_path w1).1 = Ok rewritten) as Hread1.
      { apply (read_and_replace_again file_path w w1 content); [done..|].
        intros rules old new Hrules Hin. by apply (Hidem rules). }
      destruct (check_languages_ok file_path log_file w1 rewritten Hread1 Hw1)
        as (w2 & Hrun2 & Hfiles2 & _).
      rewrite Hrun2. cbn [snd]. rewrite Hfiles2, Hdoc1.
      destruct (decide (log_file = file_path)) as [->|Hne].
      * rewrite lookup_insert_eq, (Halias eq_refl). by rewrite findings_text_idemp.
      * by rewrite lookup_insert_ne, lookup_insert_eq.
    + destruct (check_languages_raise file_path log_file w e)
        as (w1 & Hrun1 & Hfiles1 & _ & Hjson1); [by eexists|done|].
      rewrite Hrun1. cbn [snd].
      destruct (check_languages_raise file_path log_file w1 e)
        as (w2 & Hrun2 & Hfiles2 & _).
      * rewrite Hfiles1, Hdoc. by eexists.
      * rewrite <- Hread. apply read_and_replace_same; [by rewrite Hfiles1|done].
      * rewrite Hrun2. cbn [snd]. by rewrite Hfiles2.
  - rewrite (check_languages_missing file_path log_file w) by done. cbn [snd].
    destruct (logged_all_fields [StartingCheck file_path; FileNotFound file_path] w)
      as (Hfiles1 & _).
    rewrite check_languages_missing by (by rewrite Hfiles1). cbn [snd].
    by destruct (logged_all_fields [StartingCheck file_path; FileNotFound file_path]
                   (logged_all [StartingCheck file_path; FileNotFound file_path] w))
      as (-> & _).
Qed.

Lemma rescan_leaves_document_unchanged_witness :
  files (run (check_languages "doc.txt" "language_check.log")
             (run (check_languages "doc.txt" "language_check.log") Sample.scanned).2).2
    !! "doc.txt"
  = files (run (check_languages "doc.txt" "language_check.log") Sample.scanned).2
      !! "doc.txt".
Proof.
  apply (rescan_leaves_document_unchanged "doc.txt" "language_check.log" Sample.scanned).
  - constructor.
  - intros rewritten Hdoc. vm_compute in Hdoc. injection Hdoc as <-.
    intros H. repeat (apply elem_of_cons in H as [H|H]; [discriminate|]).
    by apply not_elem_of_nil in H.
  - intros rules old new rewritten [= <-] Hin Hdoc.
    apply list_elem_of_singleton in Hin as [= -> ->].
    vm_compute in Hdoc. injection Hdoc as <-. vm_compute. reflexivity.
Defined.

(** C9, as stated, fails.  The hypothesis of the claim is on the
    replacement of the pattern by the new text, but the detector replaces
    the pattern by the new text and one space.  With the one rule that maps
    [colour] to itself and the document [colour], no write failing and no
    carriage return anywhere, replacing [colour] by [colour] changes nothing
    in the text that the first run leaves; yet the first run leaves [colour]
    and one space, and the second run [colour] and two spaces. *)
Lemma identity_rule_adds_a_space :
  writes_succeed Sample.identity_rule
  ∧ replacements_json Sample.identity_rule
    = StoreJson (JObject [(lit "colour", JString (lit "colour"))])
  ∧ files (run (check_languages "doc.txt" "language_check.log")
               Sample.identity_rule).2 !! "doc.txt"
    = Some (Text (lit "colour "))
  ∧ (carriage_return ∉ lit "colour ")
  ∧ replace (lit "colour") (lit "colour") (lit "colour ") = lit "colour "
  ∧ files (run (check_languages "doc.txt" "language_check.log")
               (run (check_languages "doc.txt" "language_check.log")
                    Sample.identity_rule).2).2 !! "doc.txt"
    = Some (Text (lit "colour  "))
  ∧ lit "colour  " ≠ lit "colour ".
Proof.
  split_and!; try by vm_compute.
  intros H. vm_compute in H.
  repeat (apply elem_of_cons in H as [H|H]; [discriminate|]).
  by apply not_elem_of_nil in H.
Qed.

(** * Further facts about lines and logs *)

Section lines_and_logs.
Implicit Types (c : char) (s line : text) (ls : list text) (w : world).

Lemma elem_of_trimmed_lines line ls :
  line ∈ List.filter truthy (map strip ls)
  ↔ line ≠ [] ∧ ∃ l, l ∈ ls ∧ line = strip l.
Proof.
  rewrite list_elem_of_In, filter_In, in_map_iff. split.
  - intros [(l & <- & Hl%list_elem_of_In) Ht]. split; [by destruct (strip l)|by exists l].
  - intros [Hne (l & Hl%list_elem_of_In & ->)]. split; [by exists l|by destruct (strip l)].
Qed.

(** The lines [parse_log] computes from a text are clean. *)
Lemma trimmed_lines_clean content line :
  line ∈ List.filter truthy (map strip (split_lines content)) → clean_line line.
Proof.
  intros [Hne (l & Hl & ->)]%elem_of_trimmed_lines. split_and!; [done| |apply strip_idemp].
  by apply strip_no_newline, (split_lines_no_newline content).
Qed.

Lemma parse_log_lines file_path w lines line :
  (parse_log file_path w).1 = Ok lines → line ∈ lines → clean_line line.
Proof.
  rewrite parse_log_run.
  destruct (files w !! file_path) as [[content|]|]; intros [= <-] Hin.
  - by apply (trimmed_lines_clean content).
  - by apply not_elem_of_nil in Hin.
  - by apply not_elem_of_nil in Hin.
Qed.

Lemma split_lines_terminated ls :
  Forall (λ line, newline ∉ line) ls →
  split_lines (flat_map (λ line, line ++ [newline]) ls) = ls ++ [[]].
Proof.
  induction 1 as [|line ls Hline _ IH]; [done|].
  cbn [flat_map]. by rewrite split_lines_line, IH.
Qed.

Lemma trimmed_lines_of_clean ls :
  Forall clean_line ls → List.filter truthy (map strip ls) = ls.
Proof.
  induction 1 as [|line ls (Hne & _ & Hs) _ IH]; [done|].
  simpl. rewrite Hs, IH. by destruct line.
Qed.

(** Reading back clean lines written one per line gives the lines. *)
Lemma trimmed_lines_terminated ls :
  Forall clean_line ls →
  List.filter truthy (map strip (split_lines (flat_map (λ line, line ++ [newline]) ls)))
  = ls.
Proof.
  intros Hls. rewrite split_lines_terminated.
  - rewrite map_app, List.filter_app, trimmed_lines_of_clean by done. apply app_nil_r.
  - eapply Forall_impl; [done|]. by intros line (_ & ? & _).
Qed.

End lines_and_logs.

(** X1.  Every line that [parse_log] returns is not empty, holds no newline
    and has no whitespace at either end (trimming it again changes nothing). *)
Theorem parse_log_returns_clean_lines
    (file_path : string) (w : world) (lines : list text) (line : text) :
  (run (parse_log file_path) w).1 = Ok lines →
  line ∈ lines →
  line ≠ [] ∧ (newline ∉ line) ∧ strip line = line
  ∧ (∀ c, head line = Some c → isspace c = false)
  ∧ (∀ c, last line = Some c → isspace c = false).
Proof.
  unfold run. intros Hrun Hin.
  destruct (parse_log_lines _ _ _ _ Hrun Hin) as (Hne & Hnl & Hs).
  split_and!; [done..| |]; rewrite <- Hs; [apply strip_head|apply strip_last].
Qed.

Lemma parse_log_returns_clean_lines_witness :
  lit "B2" ≠ [] ∧ (newline ∉ lit "B2") ∧ strip (lit "B2") = lit "B2"
  ∧ (∀ c, head (lit "B2") = Some c → isspace c = false)
  ∧ (∀ c, last (lit "B2") = Some c → isspace c = false).
Proof.
  apply (parse_log_returns_clean_lines "language_proof_translated.log"
           Sample.uneven_logs [lit "A2"; lit "B2"; lit "A3"] (lit "B2")).
  - vm_compute. reflexivity.
  - right. left.
Defined.

(** X2.  A log written with one line per entry, each entry not empty,
    without a newline and without whitespace at its ends, is read back by
    [parse_log] as exactly these entries, in order. *)
Theorem parse_log_reads_back_written_lines
    (file_path : string) (w : world) (entries : list text) :
  files w !! file_path
  = Some (Text (flat_map (λ line, line ++ [newline]) entries)) →
  Forall clean_line entries →
  run (parse_log file_path) w = (Ok entries, w).
Proof.
  unfold run. intros Hfile Hclean. rewrite parse_log_run, Hfile.
  by rewrite trimmed_lines_terminated.
Qed.

Lemma parse_log_reads_back_written_lines_witness :
  run (parse_log "language_proof.log") Sample.cascade
  = (Ok [lit "foo"; lit "bar"], Sample.cascade).
Proof.
  apply (parse_log_reads_back_written_lines "language_proof.log" Sample.cascade
           [lit "foo"; lit "bar"]).
  - vm_compute. reflexivity.
  - repeat constructor; try (vm_compute; discriminate);
      intros H; vm_compute in H; repeat (apply elem_of_cons in H as [H|H]; [discriminate|]);
      by apply not_elem_of_nil in H.
Defined.

(** * Further facts about the replacement map *)

Section map_facts.
Implicit Types (k v : text) (d : dict) (pairs : list (text * text)).

Lemma elem_of_dict_set k v d kv : kv ∈ dict_set k v d → kv = (k, v) ∨ kv ∈ d.
Proof.
  induction d as [|[k0 v0] d IH]; simpl.
  - intros ->%list_elem_of_singleton. by left.
  - destruct (decide (k0 = k)) as [->|Hk].
    + intros [->|H]%elem_of_cons; [by left|right; by right].
    + intros [->|H]%elem_of_cons; [right; by left|].
      destruct (IH H) as [->|?]; [by left|right; by right].
Qed.

Lemma elem_of_fold_set pairs d kv :
  kv ∈ fold_left (λ d kv, dict_set kv.1 kv.2 d) pairs d → kv ∈ pairs ∨ kv ∈ d.
Proof.
  revert d. induction pairs as [|[k0 v0] pairs IH]; intros d; simpl; [by right|].
  intros [H|[->|H]%elem_of_dict_set]%IH.
  - left. by right.
  - left. by left.
  - by right.
Qed.

Lemma elem_of_dict_of_pairs pairs kv : kv ∈ dict_of_pairs pairs → kv ∈ pairs.
Proof.
  intros [H|H]%elem_of_fold_set; [done|]. by apply not_elem_of_nil in H.
Qed.

Lemma dict_set_fresh k v d : k ∉ keys d → dict_set k v d = d ++ [(k, v)].
Proof.
  unfold keys. induction d as [|[k0 v0] d IH]; csimpl; [done|].
  intros [Hk Hd]%not_elem_of_cons. rewrite decide_False by congruence.
  by rewrite IH.
Qed.

(** Pairs with distinct keys are stored as they come. *)
Lemma fold_set_distinct pairs d :
  NoDup (keys d ++ pairs.*1) →
  fold_left (λ d kv, dict_set kv.1 kv.2 d) pairs d = d ++ pairs.
Proof.
  revert d. induction pairs as [|[k v] pairs IH]; intros d; csimpl.
  - intros _. by rewrite app_nil_r.
  - intros Hnd. rewrite dict_set_fresh.
    + rewrite IH; [by rewrite <- app_assoc|].
      unfold keys. rewrite fmap_app. csimpl. by rewrite <- app_assoc.
    + apply NoDup_app in Hnd as (_ & Hnd & _). intros Hk.
      apply (Hnd k Hk). by left.
Qed.

End map_facts.

(** X3.  A replacement map that [create_replacement_map] returns is never
    empty, and each of its patterns and replacements is a line as [parse_log]
    returns them: not empty, without a newline, and without whitespace at its
    ends.  In particular no pattern is the empty string. *)
Theorem created_map_has_clean_entries
    (proof_log_path translated_log_path : string) (w : world) (d : dict) :
  (run (create_replacement_map proof_log_path translated_log_path) w).1
  = Ok (Some d) →
  d ≠ [] ∧ ∀ k v, (k, v) ∈ d → clean_line k ∧ clean_line v.
Proof.
  unfold run. intros Hmap.
  split; [by apply (create_replacement_map_Some _ _ _ _ Hmap)|].
  destruct (parse_log_files proof_log_path w) as (findings & w1 & E1 & _).
  destruct (parse_log_files translated_log_path w) as (corrected & w2 & E2 & _).
  destruct (create_replacement_map_run proof_log_path translated_log_path w
              findings corrected) as (w' & _ & _ & _ & E);
    [by rewrite E1|by rewrite E2|].
  rewrite E in Hmap.
  destruct (negb (truthy findings) || negb (truthy corrected)); [done|].
  injection Hmap as <-.
  intros k v Hin%elem_of_dict_of_pairs. split.
  - apply (parse_log_lines proof_log_path w findings); [by rewrite E1|].
    by eapply elem_of_zip_l.
  - apply (parse_log_lines translated_log_path w corrected); [by rewrite E2|].
    by eapply elem_of_zip_r.
Qed.

Lemma created_map_has_clean_entries_witness :
  [(lit "foo", lit "bar"); (lit "bar", lit "baz")] ≠ []
  ∧ ∀ k v, (k, v) ∈ [(lit "foo", lit "bar"); (lit "bar", lit "baz")] →
           clean_line k ∧ clean_line v.
Proof.
  apply (created_map_has_clean_entries
           "language_proof.log" "language_proof_translated.log" Sample.cascade).
  vm_compute. reflexivity.
Defined.

(** X4.  When the findings that have a corrected line are all different and
    neither log is empty, the replacement map is the list of pairs itself:
    the [i]-th entry maps the [i]-th finding to the [i]-th corrected line, in
    the order of the logs, up to the shorter length.  The lines of the longer
    log that have no partner are left out without a diagnostic: the start of
    the parsing is all that is logged, and no file is touched. *)
Theorem create_replacement_map_distinct_findings
    (proof_log_path translated_log_path : string) (w : world)
    (findings corrected : list text) :
  (run (parse_log proof_log_path) w).1 = Ok findings →
  (run (parse_log translated_log_path) w).1 = Ok corrected →
  findings ≠ [] → corrected ≠ [] →
  NoDup (take (length corrected) findings) →
  run (create_replacement_map proof_log_path translated_log_path) w
  = (Ok (Some (zip findings corrected)),
     World (files w) (replacements_json w) (faults w) (journal w ++ [ParsingLogs]))
  ∧ length (zip findings corrected) = Nat.min (length findings) (length corrected).
Proof.
  unfold run. intros Hf Hc Hfne Hcne Hnd.
  assert ((create_replacement_map proof_log_path translated_log_path w).1
          = Ok (Some (zip findings corrected))) as Hmap.
  { destruct (create_replacement_map_run _ _ _ _ _ Hf Hc) as (w' & _ & _ & _ & ->).
    destruct findings as [|f findings]; [done|].
    destruct corrected as [|c corrected]; [done|].
    cbn [truthy negb orb fst]. do 2 f_equal. unfold dict_of_pairs.
    rewrite fold_set_distinct; [done|]. by rewrite fst_zip_take. }
  split; [|apply length_zip].
  apply create_replacement_map_Some in Hmap as [_ Hmap]. by rewrite Hmap.
Qed.

Lemma create_replacement_map_distinct_findings_witness :
  run (create_replacement_map "language_proof.log" "language_proof_translated.log")
      Sample.surplus
  = (Ok (Some (zip [lit "foo"; lit "bar"; lit "qux"] [lit "bar"; lit "baz"])),
     World (files Sample.surplus) (replacements_json Sample.surplus)
           (faults Sample.surplus) (journal Sample.surplus ++ [ParsingLogs]))
  ∧ length (zip [lit "foo"; lit "bar"; lit "qux"] [lit "bar"; lit "baz"])
    = Nat.min (length [lit "foo"; lit "bar"; lit "qux"])
              (length [lit "bar"; lit "baz"]).
Proof.
  apply (create_replacement_map_distinct_findings
           "language_proof.log" "language_proof_translated.log" Sample.surplus).
  - vm_compute. reflexivity.
  - vm_compute. reflexivity.
  - discriminate.
  - discriminate.
  - apply (bool_decide_unpack (NoDup _)). vm_compute. exact I.
Defined.

(** * Further facts about the Substitution Engine *)

Section engine_facts.
Implicit Types (d : dict) (content old new s : text) (w : world).

(** An occurrence has a leftmost one. *)
Lemma contains_first old s :
  contains old s = true →
  ∃ pre post, s = pre ++ old ++ post ∧ first_occurs_at old pre s.
Proof.
  induction s as [|c s IH]; simpl.
  - rewrite orb_false_r. intros [post E]%startswith_spec. exists [], post.
    split; [done|]. split; [by exists post|]. intros pre' _. simpl. lia.
  - destruct (startswith old (c :: s)) eqn:Hs; simpl.
    + intros _. apply startswith_spec in Hs as [post E]. exists [], post.
      split; [done|]. split; [by exists post|]. intros pre' _. simpl. lia.
    + intros (pre & post & -> & Hocc & Hmin)%IH. exists (c :: pre), post.
      split; [done|]. split; [by apply occurs_at_cons|].
      intros [|c' pre'] [post' E].
      * assert (startswith old (c :: pre ++ old ++ post) = true) as Hs'
          by (apply startswith_spec; by exists post').
        congruence.
      * injection E as -> E. simpl.
        specialize (Hmin pre' (ex_intro _ post' E)). lia.
Qed.

Lemma replace_empty_self s : replace [] [] s = s.
Proof. simpl. induction s as [|c s IH]; simpl; [done|]. by rewrite IH. Qed.

(** Replacing a pattern by itself changes nothing. *)
Lemma replace_self old s : replace old old s = s.
Proof.
  destruct (decide (old = [])) as [->|Hold]; [apply replace_empty_self|].
  remember (length s) as n eqn:Hn. revert s Hn.
  induction (lt_wf n) as [n _ IH]. intros s ->.
  destruct (contains old s) eqn:Hc; [|by apply replace_absent].
  apply contains_first in Hc as (pre & post & -> & Hfirst).
  rewrite replace_first by done.
  rewrite (IH (length post) ltac:(rewrite !length_app;
                                  destruct old; [done|simpl; lia]) post eq_refl).
  done.
Qed.

Lemma apply_rules_count_le d content : ((apply_rules d content).2 ≤ length d)%nat.
Proof.
  revert content. induction d as [|[old new] d IH]; intros content; [done|].
  rewrite apply_rules_cons. destruct (contains old content); simpl.
  - specialize (IH (replace old new content)). lia.
  - specialize (IH content). lia.
Qed.

Lemma apply_rules_count_zero d content :
  (apply_rules d content).2 = O → (apply_rules d content).1 = content.
Proof.
  revert content. induction d as [|[old new] d IH]; intros content; [done|].
  rewrite apply_rules_cons. destruct (contains old content); [done|]. apply IH.
Qed.

Lemma apply_rules_identity d content :
  (∀ old new, (old, new) ∈ d → old = new) → (apply_rules d content).1 = content.
Proof.
  revert content. induction d as [|[old new] d IH]; intros content Hid; [done|].
  assert (∀ old new, (old, new) ∈ d → old = new) as Hd
    by (intros ???; apply Hid; by right).
  rewrite apply_rules_cons. destruct (contains old content); simpl; [|by apply IH].
  rewrite <- (Hid old new) by left. rewrite replace_self. by apply IH.
Qed.

(** What a write leaves of the other files. *)
Lemma write_file_other path content w p :
  p ≠ path → files (write_file path content w).2 !! p = files w !! p.
Proof.
  intros Hp. unfold write_file.
  destruct (head (faults w)) as [[[|written]|]|]; simpl;
    by rewrite ?lookup_insert_ne.
Qed.

Lemma create_replacement_map_same_files proof_log_path translated_log_path w1 w2 :
  files w1 = files w2 →
  (create_replacement_map proof_log_path translated_log_path w1).1
  = (create_replacement_map proof_log_path translated_log_path w2).1.
Proof.
  intros Hfiles.
  destruct (parse_log_files proof_log_path w2) as (findings & u1 & E1 & _).
  destruct (parse_log_files translated_log_path w2) as (corrected & u2 & E2 & _).
  destruct (create_replacement_map_run proof_log_path translated_log_path w2
              findings corrected) as (w2' & _ & _ & _ & ->);
    [by rewrite E1|by rewrite E2|].
  destruct (create_replacement_map_run proof_log_path translated_log_path w1
              findings corrected) as (w1' & _ & _ & _ & ->).
  - by rewrite (parse_log_same_files _ w1 w2), E1.
  - by rewrite (parse_log_same_files _ w1 w2), E2.
  - by destruct (negb (truthy findings) || negb (truthy corrected)).
Qed.

(** [create_replacement_map] returns, and touches neither the files nor the
    schedule of writes. *)
Lemma create_replacement_map_frame proof_log_path translated_log_path w :
  ∃ r w', create_replacement_map proof_log_path translated_log_path w = (Ok r, w')
          ∧ files w' = files w ∧ faults w' = faults w
          ∧ (r = Some [] → False).
Proof.
  destruct (parse_log_files proof_log_path w) as (findings & u1 & E1 & _).
  destruct (parse_log_files translated_log_path w) as (corrected & u2 & E2 & _).
  destruct (create_replacement_map_run proof_log_path translated_log_path w
              findings corrected) as (w' & F & G & _ & E);
    [by rewrite E1|by rewrite E2|].
  rewrite E. destruct findings as [|f findings]; [by eexists _, _|].
  destruct corrected as [|c corrected]; [by eexists _, _|].
  eexists _, _. split; [reflexivity|]. split_and!; [done..|].
  intros [= H]. by apply dict_of_pairs_nonempty in H.
Qed.

(** [main], branch by branch. *)
Lemma main_cases proof_log translated_log target_file w :
  ∃ r w1,
    (create_replacement_map proof_log translated_log w).1 = Ok r
    ∧ files w1 = files w ∧ faults w1 = faults w
    ∧ main proof_log translated_log target_file w =
      match r with
      | None => (Ok (), logged CouldNotCreateMap w1)
      | Some d =>
          let w2 := logged (ReadingTarget target_file) w1 in
          match files w !! target_file with
          | None => (Ok (), logged (TargetNotFound target_file) w2)
          | Some Opaque => (Raise OtherException, w2)
          | Some (Text original) =>
              let w3 := logged (FoundRules (length d)) (logged StartingReplacement w2) in
              let content := (apply_rules d original).1 in
              let modified_count := (apply_rules d original).2 in
              if decide (original = content)
              then (Ok (), logged ScriptFinished (logged NoChangesMade w3))
              else match write_file target_file content w3 with
                   | (Ok _, w4) =>
                       (Ok (), logged ScriptFinished
                                 (logged (ModificationSuccessful modified_count) w4))
                   | (Raise _, w4) =>
                       (Ok (), logged ScriptFinished (logged ErrorWriting w4))
                   end
          end
      end.
Proof.
  pose (w0 := logged (TargetFile target_file) (logged ScriptStarted w)).
  destruct (create_replacement_map_frame proof_log translated_log w0)
    as (r & w1 & Hmap & F & G & Hne).
  change (files w1 = files w) in F. change (faults w1 = faults w) in G.
  exists r, w1. split_and!; [|done..|].
  { rewrite <- (create_replacement_map_same_files _ _ w0 w) by done.
    by rewrite Hmap. }
  unfold main, mbind, io_bind, log at 1 2. fold w0. rewrite Hmap.
  destruct r as [[|rule d]|]; [by destruct Hne|clear Hne|done].
  unfold try_except, read_file, log, mret, io_ret. cbn [files logged].
  rewrite F. cbn zeta.
  destruct (files w !! target_file) as [[original|]|]; [|done..].
  destruct (apply_rules (rule :: d) original) as [content n]. cbn [fst snd].
  destruct (decide (original = content)); [done|].
  by destruct (write_file _ _ _) as [[[]|e] w4].
Qed.

End engine_facts.



(** X6.  The logs and the target being other files than [fix_script.log]:
    when the map is built and opening the target for reading raises
    [FileNotFoundError], [main] logs that the target was not found and
    returns normally.  The target is not created, no file other than
    [fix_script.log] is changed and no write of the target is attempted. *)
Theorem main_missing_target_creates_nothing
    (proof_log translated_log target_file : string) (w : world) (d : dict) :
  proof_log ≠ fix_script_log →
  translated_log ≠ fix_script_log →
  target_file ≠ fix_script_log →
  (run (create_replacement_map proof_log translated_log) w).1 = Ok (Some d) →
  (run (read_file target_file) w).1 = Raise FileNotFoundError →
  (run (main proof_log translated_log target_file) w).1 = Ok ()
  ∧ (∀ path, path ≠ fix_script_log →
       files (run (main proof_log translated_log target_file) w).2 !! path
       = files w !! path)
  ∧ (run (read_file target_file)
         (run (main proof_log translated_log target_file) w).2).1
    = Raise FileNotFoundError
  ∧ faults (run (main proof_log translated_log target_file) w).2 = faults w
  ∧ last (journal (run (main proof_log translated_log target_file) w).2)
    = Some (TargetNotFound target_file).
Proof.
  unfold run. intros _ _ _ Hmap Htarget.
  assert (files w !! target_file = None) as Hnone.
  { unfold read_file in Htarget.
    by destruct (files w !! target_file) as [[original|]|]. }
  destruct (main_cases proof_log translated_log target_file w)
    as (r & w1 & Hr & F & G & ->).
  rewrite Hmap in Hr. injection Hr as <-. rewrite Hnone. cbn.
  split_and!; [done|by rewrite F| |done|apply last_snoc].
  unfold read_file. cbn. by rewrite F, Hnone.
Qed.

Lemma main_missing_target_creates_nothing_witness :
  (run (main "language_proof.log" "language_proof_translated.log" "doc.txt")
       Sample.no_target).1 = Ok ()
  ∧ (∀ path, path ≠ fix_script_log →
       files (run (main "language_proof.log" "language_proof_translated.log" "doc.txt")
                  Sample.no_target).2 !! path
       = files Sample.no_target !! path)
  ∧ (run (read_file "doc.txt")
         (run (main "language_proof.log" "language_proof_translated.log" "doc.txt")
              Sample.no_target).2).1
    = Raise FileNotFoundError
  ∧ faults (run (main "language_proof.log" "language_proof_translated.log" "doc.txt")
                Sample.no_target).2 = faults Sample.no_target
  ∧ last (journal (run (main "language_proof.log" "language_proof_translated.log"
                             "doc.txt") Sample.no_target).2)
    = Some (TargetNotFound "doc.txt").
Proof.
  apply (main_missing_target_creates_nothing
           "language_proof.log" "language_proof_translated.log" "doc.txt"
           Sample.no_target [(lit "foo", lit "bar"); (lit "bar", lit "baz")]).
  - discriminate.
  - discriminate.
  - discriminate.
  - vm_compute. reflexivity.
  - vm_compute. reflexivity.
Defined.

(** X7.  The logs and the target being other files than [fix_script.log],
    and once the logging is set up, [main] lets an exception escape in
    exactly one situation: the map has been built and opening or reading the
    target raises an exception other than [FileNotFoundError], the only one
    that is caught around the read; it is this exception that escapes.  In
    every other case, a failing write included, [main] returns normally. *)
Theorem main_raises_iff_target_unreadable
    (proof_log translated_log target_file : string) (w : world) (e : exn) :
  proof_log ≠ fix_script_log →
  translated_log ≠ fix_script_log →
  target_file ≠ fix_script_log →
  (run (main proof_log translated_log target_file) w).1 = Raise e
  ↔ (run (read_file target_file) w).1 = Raise e
    ∧ e ≠ FileNotFoundError
    ∧ ∃ d, (run (create_replacement_map proof_log translated_log) w).1
           = Ok (Some d).
Proof.
  unfold run. intros _ _ _.
  destruct (main_cases proof_log translated_log target_file w)
    as (r & w1 & Hr & F & G & ->).
  rewrite Hr. unfold read_file. destruct r as [d|]; cbn zeta.
  - destruct (files w !! target_file) as [[original|]|]; cbn [fst].
    + destruct (decide (original = (apply_rules d original).1)).
      * split; [done|]. by intros (? & _).
      * destruct (write_file _ _ _) as [[[]|e'] w4];
          (split; [done|]); by intros (? & _).
    + split; [intros [= <-]; split_and!; [done..|by exists d]|].
      by intros [[= <-] _].
    + split; [done|]. by intros ([= <-] & ? & _).
  - split; [done|]. by intros (_ & _ & d & ?).
Qed.

Lemma main_raises_iff_target_unreadable_witness :
  (run (main "language_proof.log" "language_proof_translated.log" "doc.txt")
       Sample.cascade_undecodable).1 = Raise OtherException.
Proof.
  apply (main_raises_iff_target_unreadable
           "language_proof.log" "language_proof_translated.log" "doc.txt"
           Sample.cascade_undecodable OtherException);
    [discriminate..|].
  split_and!; [vm_compute; reflexivity|discriminate|].
  exists [(lit "foo", lit "bar"); (lit "bar", lit "baz")]. vm_compute. reflexivity.
Defined.

(** X8.  Whatever happens, [main] changes no file but the target and
    [fix_script.log], which its logging handler empties and writes at each
    run: every other path holds after the run what it held before, the two
    logs included when they are other files. *)
Theorem main_changes_only_target
    (proof_log translated_log target_file : string) (w : world) (path : string) :
  path ≠ target_file →
  path ≠ fix_script_log →
  files (run (main proof_log translated_log target_file) w).2 !! path
  = files w !! path.
Proof.
  unfold run. intros Hpath _.
  destruct (main_cases proof_log translated_log target_file w)
    as (r & w1 & Hr & F & G & ->).
  destruct r as [d|]; cbn zeta; [|by cbn; rewrite F].
  destruct (files w !! target_file) as [[original|]|]; [|by cbn; rewrite F..].
  destruct (decide (original = (apply_rules d original).1)); [by cbn; rewrite F|].
  pose proof (write_file_other target_file (apply_rules d original).1
    (logged (FoundRules (length d))
       (logged StartingReplacement (logged (ReadingTarget target_file) w1)))
    path Hpath) as Hw.
  destruct (write_file _ _ _) as [[[]|e'] w4]; cbn in *; by rewrite Hw, F.
Qed.

Lemma main_changes_only_target_witness :
  files (run (main "language_proof.log" "language_proof_translated.log" "doc.txt")
             Sample.cascade).2 !! "language_proof.log"
  = files Sample.cascade !! "language_proof.log".
Proof.
  apply (main_changes_only_target
           "language_proof.log" "language_proof_translated.log" "doc.txt"
           Sample.cascade "language_proof.log"); discriminate.
Defined.

(** X9.  When the rules change the text and the write goes through, the
    target holds exactly the text the loop produced, and [main] reports the
    number of rules that fired, which is then at least one. *)
Theorem main_writes_the_rewritten_text
    (proof_log translated_log target_file : string) (w : world)
    (d : dict) (original : text) :
  (run (create_replacement_map proof_log translated_log) w).1 = Ok (Some d) →
  files w !! target_file = Some (Text original) →
  (apply_rules d original).1 ≠ original →
  head (faults w) = None ∨ head (faults w) = Some None →
  ∃ w', run (main proof_log translated_log target_file) w = (Ok (), w')
        ∧ files w' = <[target_file := Text (apply_rules d original).1]> (files w)
        ∧ journal w' = journal w ++
            [ScriptStarted; TargetFile target_file; ParsingLogs;
             ReadingTarget target_file; StartingReplacement;
             FoundRules (length d);
             ModificationSuccessful (apply_rules d original).2; ScriptFinished]
        ∧ (1 ≤ (apply_rules d original).2)%nat.
Proof.
  unfold run. intros Hmap Htarget Hchanged Hfault.
  rewrite (main_run _ _ _ _ d original) by done. cbn zeta.
  rewrite decide_False by done. unfold write_file. cbn [faults logged].
  assert (1 ≤ (apply_rules d original).2)%nat as Hcount.
  { destruct (apply_rules d original).2 eqn:Hz; [|lia].
    by apply apply_rules_count_zero in Hz. }
  destruct Hfault as [-> | ->]; (eexists; split; [reflexivity|]); cbn;
    by rewrite <- !app_assoc.
Qed.

Lemma main_writes_the_rewritten_text_witness :
  ∃ w', run (main "language_proof.log" "language_proof_translated.log" "doc.txt")
            Sample.cascade = (Ok (), w')
        ∧ files w'
          = <["doc.txt" :=
                Text (apply_rules [(lit "foo", lit "bar"); (lit "bar", lit "baz")]
                                  (lit "foo")).1]> (files Sample.cascade)
        ∧ journal w' = journal Sample.cascade ++
            [ScriptStarted; TargetFile "doc.txt"; ParsingLogs;
             ReadingTarget "doc.txt"; StartingReplacement;
             FoundRules (length [(lit "foo", lit "bar"); (lit "bar", lit "baz")]);
             ModificationSuccessful
               (apply_rules [(lit "foo", lit "bar"); (lit "bar", lit "baz")]
                            (lit "foo")).2;
             ScriptFinished]
        ∧ (1 ≤ (apply_rules [(lit "foo", lit "bar"); (lit "bar", lit "baz")]
                            (lit "foo")).2)%nat.
Proof.
  apply (main_writes_the_rewritten_text
           "language_proof.log" "language_proof_translated.log" "doc.txt"
           Sample.cascade).
  - vm_compute. reflexivity.
  - vm_compute. reflexivity.
  - vm_compute. discriminate.
  - left. reflexivity.
Defined.

(** X10.  [modified_count] never exceeds the number of rules, and it is zero
    only if the text is unchanged: a text that the loop has changed comes
    with a count of at least one.  The converse fails: rules that replace a
    pattern by itself count without changing anything. *)
Theorem modified_count_bounds :
  (∀ d content, ((apply_rules d content).2 ≤ length d)%nat)
  ∧ (∀ d content, (apply_rules d content).2 = O → (apply_rules d content).1 = content)
  ∧ (∀ d content,
       (∀ old new, (old, new) ∈ d → old = new) →
       (apply_rules d content).1 = content)
  ∧ apply_rules [(lit "foo", lit "foo")] (lit "foo bar") = (lit "foo bar", 1%nat).
Proof.
  split_and!;
    [apply apply_rules_count_le|apply apply_rules_count_zero
    |apply apply_rules_identity|by vm_compute].
Qed.

(** * Further facts about the Script Detector *)

Section detector_facts.
Implicit Types (c : char) (s line view : text) (w : world).

Lemma sub_parens_scan_sublist inside s : sub_parens_scan inside s `sublist_of` s.
Proof.
  revert inside. induction s as [|c s IH]; intros inside; simpl; [done|].
  destruct inside; [by apply sublist_cons|].
  destruct ((c =? lparen) && closes s); [by apply sublist_cons|].
  by apply sublist_skip.
Qed.

Lemma app_eq_app_cons_notin (x : char) pre v a r :
  x ∉ pre → pre ++ v = a ++ x :: r → ∃ a', a = pre ++ a' ∧ v = a' ++ x :: r.
Proof.
  revert a. induction pre as [|p pre IH]; intros a Hx E; simpl in *.
  - by exists a.
  - apply not_elem_of_cons in Hx as [Hxp Hx]. destruct a as [|a0 a]; simplify_eq/=.
    destruct (IH a Hx H0) as (a' & -> & ->). by exists a'.
Qed.

Lemma check_view_span_free line view : check_view line view → span_free view.
Proof.
  induction 1 as [s Hs|pre body rest view Hpre Hbody _ IH]; [done|].
  intros a b r E. apply app_eq_app_cons_notin in E as (a' & -> & E); [|done].
  by apply (IH a' b r).
Qed.

Lemma no_rparen_span_free s : rparen ∉ s → span_free s.
Proof.
  intros H a b r ->. apply H. rewrite elem_of_app, elem_of_cons, elem_of_app.
  right. right. right. by left.
Qed.

Lemma no_lparen_span_free s : lparen ∉ s → span_free s.
Proof. intros H a b r ->. apply H. rewrite elem_of_app. right. by left. Qed.

Lemma is_finding_nonblank line : is_finding line = true → strip line ≠ [].
Proof.
  rewrite <- is_finding_strip. intros H E. rewrite E in H. by vm_compute in H.
Qed.

Lemma occurs_trans a b s : occurs a b → occurs b s → occurs a s.
Proof.
  intros (p1 & q1 & ->) (p2 & q2 & ->). exists (p2 ++ p1), (q1 ++ q2).
  by rewrite <- !app_assoc.
Qed.

Lemma occurs_strip line : occurs (strip line) line.
Proof. destruct (strip_split line) as (l & r & E & _). by exists l, r. Qed.

Lemma occurs_cons a c s : occurs a s → occurs a (c :: s).
Proof. intros (p & q & ->). by exists (c :: p), q. Qed.

Lemma occurs_suffix a p s : occurs a s → occurs a (p ++ s).
Proof. intros (p' & q & ->). exists (p ++ p'), q. by rewrite <- app_assoc. Qed.

(** The first line of a text is the text, or is followed in it by a
    newline and the text of the other lines. *)
Lemma split_lines_head s :
  ∃ l ls, split_lines s = l :: ls
          ∧ ((ls = [] ∧ s = l)
             ∨ ∃ rest, s = l ++ newline :: rest ∧ ls = split_lines rest).
Proof.
  induction s as [|c s (l & ls & E & IH)]; simpl.
  - exists [], []. split; [done|]. by left.
  - destruct (c =? newline) eqn:Ec.
    + apply Z.eqb_eq in Ec as ->. exists [], (split_lines s).
      split; [done|]. right. by exists s.
    + rewrite E. exists (c :: l), ls. split; [done|].
      destruct IH as [[-> ->]|(rest & -> & ->)]; [by left|].
      right. by exists rest.
Qed.

(** Each line of a text occurs in it. *)
Lemma occurs_split_lines s line : line ∈ split_lines s → occurs line s.
Proof.
  remember (length s) as n eqn:Hn. revert s Hn line.
  induction (lt_wf n) as [n _ IH]. intros s -> line.
  destruct (split_lines_head s) as (l & ls & -> & [[-> ->]|(rest & -> & ->)]).
  - intros [->|H]%elem_of_cons; [|by apply not_elem_of_nil in H].
    exists [], []. by rewrite app_nil_r.
  - intros [->|H]%elem_of_cons; [by exists [], (newline :: rest)|].
    apply occurs_suffix, (occurs_cons _ newline).
    apply (IH (length rest)); [|done..]. rewrite length_app. simpl. lia.
Qed.

End detector_facts.

Section detector_run_facts.
Implicit Types (w : world) (file_path log_file : string) (content : text).

(** A scan in which nothing fails ends with the log of its outcome. *)
Lemma check_languages_ok_last file_path log_file w content :
  (read_and_replace file_path w).1 = Ok content →
  writes_succeed w →
  last (journal (check_languages file_path log_file w).2)
  = Some (if existsb is_finding (split_lines content)
          then CheckFinished log_file else NoLanguageFound).
Proof.
  intros Hread Hw.
  destruct (read_and_replace_Ok _ _ _ Hread) as [original Hdoc].
  destruct (check_languages_run file_path log_file w) as [es Hrun]; [by eexists|].
  cbn zeta in Hrun. rewrite Hread in Hrun. rewrite Hrun. clear Hrun.
  destruct (write_file_ok file_path content
              (logged_all (StartingCheck file_path :: es) w))
    as (w2 & -> & _ & _ & _ & S2); [by apply writes_succeed_logged_all|].
  destruct (write_file_ok log_file (findings_text (split_lines content))
              (logged ContentModified w2))
    as (w3 & -> & _); [done|].
  apply last_snoc.
Qed.

Lemma check_languages_returns file_path log_file w :
  (check_languages file_path log_file w).1 = Ok ().
Proof.
  destruct (files w !! file_path) as [node|] eqn:Hdoc.
  - destruct (check_languages_run file_path log_file w) as [es ->]; [by eexists|].
    cbn zeta. destruct (read_and_replace file_path w).1 as [content|e]; [|done].
    destruct (write_file file_path content _) as [[[]|e] w2]; [|done].
    by destruct (write_file log_file _ _) as [[[]|e] w3].
  - by rewrite check_languages_missing.
Qed.

Lemma check_languages_other file_path log_file w path :
  path ≠ file_path → path ≠ log_file →
  files (check_languages file_path log_file w).2 !! path = files w !! path.
Proof.
  intros Hf Hl. destruct (files w !! file_path) as [node|] eqn:Hdoc.
  - destruct (check_languages_run file_path log_file w) as [es ->]; [by eexists|].
    cbn zeta.
    destruct (logged_all_fields (StartingCheck file_path :: es) w) as (F1 & _).
    destruct (read_and_replace file_path w).1 as [content|e];
      [|by cbn [snd files logged]; rewrite F1].
    pose proof (write_file_other file_path content
      (logged_all (StartingCheck file_path :: es) w) path Hf) as H2.
    destruct (write_file file_path content _) as [[[]|e] w2];
      [|by cbn [snd files logged] in *; rewrite H2, F1].
    pose proof (write_file_other log_file (findings_text (split_lines content))
      (logged ContentModified w2) path Hl) as H3.
    destruct (write_file log_file _ _) as [[[]|e] w3];
      cbn [snd files logged] in *; by rewrite H3, H2, F1.
  - rewrite check_languages_missing by done. cbn [snd].
    by destruct (logged_all_fields [StartingCheck file_path; FileNotFound file_path] w)
      as (-> & _).
Qed.

Lemma read_and_replace_no_store file_path w content :
  files w !! file_path = Some (Text content) →
  replacements_json w = StoreMissing ∨ replacements_json w = StoreMalformed →
  read_and_replace file_path w = (Ok content, logged CouldNotLoadReplacements w).
Proof.
  intros Hdoc Hstore. unfold read_and_replace. rewrite !bind_run.
  unfold read_file. rewrite Hdoc, !bind_run, load_replacements_run.
  by destruct Hstore as [-> | ->].
Qed.

Lemma findings_text_empty (final_lines : list text) :
  findings_text final_lines = [] ↔ existsb is_finding final_lines = false.
Proof.
  split; [|apply findings_text_none].
  unfold findings_text. induction final_lines as [|line ls IH]; simpl; [done|].
  destruct (is_finding line); simpl; [|done].
  intros H. apply app_eq_nil in H as [H _]. by apply app_eq_nil in H as [_ H].
Qed.

(** The findings, trimmed, are clean lines. *)
Lemma findings_clean content :
  Forall clean_line (map strip (List.filter is_finding (split_lines content))).
Proof.
  apply Forall_forall. intros k.
  rewrite list_elem_of_In, in_map_iff.
  intros (line & <- & [Hline%list_elem_of_In Hfound]%filter_In).
  split_and!; [by apply is_finding_nonblank| |apply strip_idemp].
  by apply strip_no_newline, (split_lines_no_newline content).
Qed.

Lemma findings_text_map content :
  findings_text (split_lines content)
  = flat_map (λ line, line ++ [newline])
             (map strip (List.filter is_finding (split_lines content))).
Proof.
  rewrite findings_text_filter.
  induction (List.filter is_finding (split_lines content)) as [|l ls IH]; [done|].
  simpl. by rewrite IH.
Qed.

End detector_run_facts.

(** X11.  [check_languages] never lets an exception escape: whatever the
    files, the replacements file and the failures of its writes, it returns
    normally. *)
Theorem check_languages_never_raises (file_path log_file : string) (w : world) :
  (run (check_languages file_path log_file) w).1 = Ok ().
Proof. apply check_languages_returns. Qed.

(** X12.  Whatever happens, [check_languages] changes no file but the
    document and the findings log: every other path holds after the run what
    it held before. *)
Theorem check_languages_changes_only_document_and_log
    (file_path log_file : string) (w : world) (path : string) :
  path ≠ file_path → path ≠ log_file →
  files (run (check_languages file_path log_file) w).2 !! path = files w !! path.
Proof. apply check_languages_other. Qed.

Lemma check_languages_changes_only_document_and_log_witness :
  files (run (check_languages "doc.txt" "language_check.log") Sample.cascade).2
    !! "language_proof.log"
  = files Sample.cascade !! "language_proof.log".
Proof.
  apply (check_languages_changes_only_document_and_log
           "doc.txt" "language_check.log" Sample.cascade "language_proof.log");
    discriminate.
Defined.

(** X13.  When [replacements.json] is missing or is not valid JSON, the scan
    goes on with no replacement: it logs that the file could not be loaded,
    writes the document back with its text unchanged, and logs the findings
    of the original lines. *)
Theorem check_languages_without_replacements_file
    (file_path log_file : string) (w : world) (content : text) :
  files w !! file_path = Some (Text content) →
  replacements_json w = StoreMissing ∨ replacements_json w = StoreMalformed →
  writes_succeed w →
  (run (read_and_replace file_path) w).1 = Ok content
  ∧ CouldNotLoadReplacements ∈ journal (run (read_and_replace file_path) w).2
  ∧ files (run (check_languages file_path log_file) w).2
    = <[log_file := Text (findings_text (split_lines content))]>
        (<[file_path := Text content]> (files w)).
Proof.
  unfold run. intros Hdoc Hstore Hw.
  rewrite (read_and_replace_no_store _ _ content) by done.
  split_and!; [done|cbn [snd journal logged]; apply elem_of_app; right; constructor|].
  destruct (check_languages_ok file_path log_file w content) as (w' & Hrun & Hfiles & _);
    [by rewrite (read_and_replace_no_store _ _ content)|done|].
  by rewrite Hrun.
Qed.

Lemma check_languages_without_replacements_file_witness :
  (run (read_and_replace "doc.txt") Sample.scanned_without_rules).1
  = Ok (Sample.exempt_line ++ [newline] ++ Sample.flagged_line ++ [newline]
        ++ Sample.indented_line)
  ∧ CouldNotLoadReplacements
    ∈ journal (run (read_and_replace "doc.txt") Sample.scanned_without_rules).2
  ∧ files (run (check_languages "doc.txt" "language_check.log")
               Sample.scanned_without_rules).2
    = <["language_check.log" :=
          Text (findings_text
                  (split_lines (Sample.exempt_line ++ [newline]
                                ++ Sample.flagged_line ++ [newline]
                                ++ Sample.indented_line)))]>
        (<["doc.txt" := Text (Sample.exempt_line ++ [newline]
                              ++ Sample.flagged_line ++ [newline]
                              ++ Sample.indented_line)]>
           (files Sample.scanned_without_rules)).
Proof.
  apply (check_languages_without_replacements_file
           "doc.txt" "language_check.log" Sample.scanned_without_rules).
  - vm_compute. reflexivity.
  - left. reflexivity.
  - constructor.
Defined.

(** X14.  In a scan in which nothing fails, the last message tells whether
    anything was found, and it agrees with the findings log: the log is empty
    exactly when no line is flagged, and then the scan reports that nothing
    was found; otherwise it reports where the results are. *)
Theorem check_languages_report_matches_log
    (file_path log_file : string) (w : world) (content : text) :
  (run (read_and_replace file_path) w).1 = Ok content →
  writes_succeed w →
  (files (run (check_languages file_path log_file) w).2 !! log_file = Some (Text [])
   ↔ existsb is_finding (split_lines content) = false)
  ∧ last (journal (run (check_languages file_path log_file) w).2)
    = Some (if existsb is_finding (split_lines content)
            then CheckFinished log_file else NoLanguageFound).
Proof.
  unfold run. intros Hread Hw. split; [|by apply check_languages_ok_last].
  destruct (check_languages_ok file_path log_file w content Hread Hw)
    as (w' & -> & Hfiles & _).
  cbn [snd]. rewrite Hfiles, lookup_insert_eq, <- findings_text_empty.
  split; [by intros [= ->]|by intros ->].
Qed.

Lemma check_languages_report_matches_log_witness :
  (files (run (check_languages "doc.txt" "language_check.log")
              Sample.clean_document).2 !! "language_check.log" = Some (Text [])
   ↔ existsb is_finding
       (split_lines (Sample.unlines [Sample.exempt_line; lit "hello world"]))
     = false)
  ∧ last (journal (run (check_languages "doc.txt" "language_check.log")
                       Sample.clean_document).2)
    = Some (if existsb is_finding
                 (split_lines (Sample.unlines [Sample.exempt_line; lit "hello world"]))
            then CheckFinished "language_check.log" else NoLanguageFound).
Proof.
  apply (check_languages_report_matches_log
           "doc.txt" "language_check.log" Sample.clean_document).
  - vm_compute. reflexivity.
  - constructor.
Defined.

Section scan_outcomes.
Implicit Types (w : world) (file_path log_file : string) (content line : text).

Lemma for_each_custom_raises rules content w :
  (∃ e, (for_each apply_custom rules content w).1 = Raise e)
  ↔ ∃ old, (old, JOther) ∈ rules.
Proof.
  revert content. induction rules as [|[old [new|]] rules IH]; intros content.
  - split; [by intros [e ?]|]. intros [old H]. by apply not_elem_of_nil in H.
  - simpl. rewrite bind_run. unfold apply_custom. simpl.
    unfold mret at 1, io_ret at 1. rewrite IH.
    split; intros [o H]; exists o; [by right|].
    by apply elem_of_cons in H as [H|H].
  - split; [intros _; exists old; left|]. intros _. by exists OtherException.
Qed.

Lemma read_and_replace_raises file_path w original :
  files w !! file_path = Some (Text original) →
  (∃ e, (read_and_replace file_path w).1 = Raise e)
  ↔ replacements_json w = StoreUnreadable
    ∨ replacements_json w = StoreJson JNotObject
    ∨ ∃ rules old, replacements_json w = StoreJson (JObject rules)
                   ∧ (old, JOther) ∈ rules.
Proof.
  intros Hdoc. unfold read_and_replace. rewrite bind_run. unfold read_file.
  rewrite Hdoc, bind_run, load_replacements_run.
  destruct (replacements_json w) as [| | |[rules|]].
  - split; [by intros [e ?]|]. by intros [?|[?|(? & ? & ? & _)]].
  - split; [by intros [e ?]|]. by intros [?|[?|(? & ? & ? & _)]].
  - split; [by left|]. intros _. by exists OtherException.
  - rewrite bind_run. cbn [items]. unfold mret at 1, io_ret at 1.
    rewrite for_each_custom_raises. split.
    + intros [old H]. right. right. by exists rules, old.
    + intros [?|[?|(rules' & old & [= <-] & H)]]; [done..|]. by exists old.
  - split; [intros _; right; by left|]. intros _. by exists OtherException.
Qed.

Lemma read_and_replace_raises_iff file_path w original :
  files w !! file_path = Some (Text original) →
  (∃ e, (read_and_replace file_path w).1 = Raise e)
  ↔ rules_unusable (replacements_json w).
Proof. apply read_and_replace_raises. Qed.

(** With the document readable, the scan ends in the [except] branch
    exactly when the rules are unusable or one of its two writes fails. *)
Lemma check_languages_given_up file_path log_file w original :
  files w !! file_path = Some (Text original) →
  last (journal (check_languages file_path log_file w).2) = Some ErrorOccurred
  ↔ rules_unusable (replacements_json w) ∨ write_fails 0 w ∨ write_fails 1 w.
Proof.
  intros Hdoc.
  pose proof (read_and_replace_raises_iff file_path w original Hdoc) as Hraise.
  destruct (check_languages_run file_path log_file w) as [es Hrun]; [by eexists|].
  cbn zeta in Hrun. rewrite Hrun. clear Hrun.
  destruct (read_and_replace file_path w).1 as [content|e] eqn:Hread.
  - assert (¬ rules_unusable (replacements_json w)) as Husable.
    { intros [e He]%Hraise. done. }
    destruct (logged_all_fields (StartingCheck file_path :: es) w) as (F1 & G1 & _).
    unfold write_file, write_fails. cbn [faults files logged]. rewrite G1.
    destruct (faults w) as [|[[|k]|] [|[[|k']|] rest]];
      cbn [head tail fst snd files faults journal replacements_json logged];
      rewrite last_snoc; cbn [lookup list_lookup];
      (split;
       [intros H;
        first [ right; left; by eexists
              | right; right; by eexists
              | by destruct (existsb is_finding (split_lines content)) ]
       |intros [H|[[f H]|[f H]]];
        first [ done | by destruct Husable | discriminate ]]).
  - cbn [snd journal logged]. rewrite last_snoc. split; [|done].
    intros _. left. apply Hraise. by exists e.
Qed.

Lemma check_languages_raise_last file_path log_file w e :
  is_Some (files w !! file_path) →
  (read_and_replace file_path w).1 = Raise e →
  last (journal (check_languages file_path log_file w).2) = Some ErrorOccurred.
Proof.
  intros Hex Hread.
  destruct (check_languages_run file_path log_file w) as [es Hrun]; [done|].
  cbn zeta in Hrun. rewrite Hread in Hrun. rewrite Hrun. apply last_snoc.
Qed.

(** After a scan in which nothing fails, the log reads back as the flagged
    lines, trimmed. *)
Lemma parse_log_after_scan file_path log_file w content :
  (read_and_replace file_path w).1 = Ok content →
  writes_succeed w →
  (parse_log log_file (check_languages file_path log_file w).2).1
  = Ok (map strip (List.filter is_finding (split_lines content))).
Proof.
  intros Hread Hw.
  destruct (check_languages_ok file_path log_file w content Hread Hw)
    as (w' & -> & Hfiles & _).
  cbn [snd]. rewrite parse_log_run, Hfiles, lookup_insert_eq. cbn [fst].
  by rewrite findings_text_map, trimmed_lines_terminated by apply findings_clean.
Qed.

Lemma elem_of_findings content line :
  line ∈ map strip (List.filter is_finding (split_lines content)) →
  is_finding line = true ∧ occurs line content.
Proof.
  rewrite list_elem_of_In, in_map_iff.
  intros (l & <- & [Hl%list_elem_of_In Hfound]%filter_In). split.
  - by rewrite is_finding_strip.
  - eapply occurs_trans; [apply occurs_strip|by apply occurs_split_lines].
Qed.

End scan_outcomes.

(** X15.  With the document readable, the scan is given up, which the
    error message ending the journal shows, exactly when the rules are
    unusable or one of the two writes fails; the rules are unusable when
    [replacements.json] exists but cannot be read, holds JSON that is not an
    object, or holds an object with a value that is not a string, and it is
    then that reading and replacing raises.  With unusable rules the scan is
    given up before anything is written: [check_languages] returns normally,
    no file is changed and no write is attempted. *)
Theorem scan_given_up_iff_rules_unusable_or_write_fails
    (file_path log_file : string) (w : world) (original : text) :
  files w !! file_path = Some (Text original) →
  (last (journal (run (check_languages file_path log_file) w).2) = Some ErrorOccurred
   ↔ rules_unusable (replacements_json w) ∨ write_fails 0 w ∨ write_fails 1 w)
  ∧ ((∃ e, (run (read_and_replace file_path) w).1 = Raise e)
     ↔ rules_unusable (replacements_json w))
  ∧ (rules_unusable (replacements_json w) →
     (run (check_languages file_path log_file) w).1 = Ok ()
     ∧ files (run (check_languages file_path log_file) w).2 = files w
     ∧ faults (run (check_languages file_path log_file) w).2 = faults w).
Proof.
  unfold run. intros Hdoc.
  split_and!; [by apply (check_languages_given_up _ _ _ original)
              |by apply (read_and_replace_raises_iff _ _ original)|].
  intros [e Hread]%(read_and_replace_raises_iff _ _ original Hdoc).
  split; [apply check_languages_returns|].
  assert (is_Some (files w !! file_path)) as Hex by by eexists.
  by destruct (check_languages_raise file_path log_file w e Hex Hread)
    as (w' & -> & ? & ? & _).
Qed.

Lemma scan_given_up_iff_rules_unusable_or_write_fails_witness :
  (last (journal (run (check_languages "doc.txt" "language_check.log")
                      Sample.number_rule).2) = Some ErrorOccurred
   ↔ rules_unusable (replacements_json Sample.number_rule)
     ∨ write_fails 0 Sample.number_rule ∨ write_fails 1 Sample.number_rule)
  ∧ ((∃ e, (run (read_and_replace "doc.txt") Sample.number_rule).1 = Raise e)
     ↔ rules_unusable (replacements_json Sample.number_rule))
  ∧ (rules_unusable (replacements_json Sample.number_rule) →
     (run (check_languages "doc.txt" "language_check.log") Sample.number_rule).1
     = Ok ()
     ∧ files (run (check_languages "doc.txt" "language_check.log")
                  Sample.number_rule).2 = files Sample.number_rule
     ∧ faults (run (check_languages "doc.txt" "language_check.log")
                   Sample.number_rule).2 = faults Sample.number_rule).
Proof.
  apply (scan_given_up_iff_rules_unusable_or_write_fails
           "doc.txt" "language_check.log" Sample.number_rule (lit "hello world")).
  vm_compute. reflexivity.
Defined.

(** X16.  When nothing fails in a scan and the text it writes back holds no
    carriage return, [parse_log] reads the findings log back as the flagged
    lines of the rewritten document, trimmed, in order and without loss;
    each of them is flagged again when it is scanned on its own. *)
Theorem parse_log_reads_back_findings
    (file_path log_file : string) (w : world) (content : text) :
  (run (read_and_replace file_path) w).1 = Ok content →
  writes_succeed w →
  carriage_return ∉ content →
  (run (parse_log log_file) (run (check_languages file_path log_file) w).2).1
  = Ok (map strip (List.filter is_finding (split_lines content)))
  ∧ Forall (λ line, is_finding line = true)
           (map strip (List.filter is_finding (split_lines content))).
Proof.
  unfold run. intros Hread Hw _. split; [by apply parse_log_after_scan|].
  apply Forall_forall. intros line Hline. by apply (elem_of_findings content).
Qed.

Lemma parse_log_reads_back_findings_witness :
  (run (parse_log "language_check.log")
       (run (check_languages "doc.txt" "language_check.log") Sample.scanned).2).1
  = Ok (map strip (List.filter is_finding (split_lines Sample.scanned_rewritten)))
  ∧ Forall (λ line, is_finding line = true)
           (map strip (List.filter is_finding (split_lines Sample.scanned_rewritten))).
Proof.
  apply (parse_log_reads_back_findings "doc.txt" "language_check.log" Sample.scanned).
  - vm_compute. reflexivity.
  - constructor.
  - intros H. vm_compute in H.
    repeat (apply elem_of_cons in H as [H|H]; [discriminate|]).
    by apply not_elem_of_nil in H.
Defined.

(** X17.  After a scan in which nothing fails, with the log kept in a file
    of its own, every line that [parse_log] reads from the findings log
    occurs in the document as the scan left it, so a rule built from it
    finds its pattern there. *)
Theorem logged_findings_occur_in_document
    (file_path log_file : string) (w : world) (content : text)
    (lines : list text) (line : text) :
  (run (read_and_replace file_path) w).1 = Ok content →
  writes_succeed w →
  log_file ≠ file_path →
  (run (parse_log log_file) (run (check_languages file_path log_file) w).2).1
  = Ok lines →
  line ∈ lines →
  files (run (check_languages file_path log_file) w).2 !! file_path
  = Some (Text content)
  ∧ occurs line content
  ∧ contains line content = true.
Proof.
  unfold run. intros Hread Hw Hne Hlines Hline.
  rewrite (parse_log_after_scan _ _ _ content) in Hlines by done.
  injection Hlines as <-.
  apply (elem_of_findings content) in Hline as [_ Hocc].
  split_and!; [|done|by apply contains_spec].
  destruct (check_languages_ok file_path log_file w content Hread Hw)
    as (w' & -> & Hfiles & _).
  cbn [snd]. by rewrite Hfiles, lookup_insert_ne, lookup_insert_eq.
Qed.

Lemma logged_findings_occur_in_document_witness :
  files (run (check_languages "doc.txt" "language_check.log") Sample.scanned).2
    !! "doc.txt" = Some (Text Sample.scanned_rewritten)
  ∧ occurs Sample.flagged_line Sample.scanned_rewritten
  ∧ contains Sample.flagged_line Sample.scanned_rewritten = true.
Proof.
  apply (logged_findings_occur_in_document "doc.txt" "language_check.log"
           Sample.scanned Sample.scanned_rewritten
           [Sample.flagged_line; Sample.nihongo ++ lit " da"] Sample.flagged_line).
  - vm_compute. reflexivity.
  - constructor.
  - discriminate.
  - vm_compute. reflexivity.
  - left.
Defined.

(** X18.  On a line, the text that is tested for the scripts is the line
    with characters deleted and nothing added or reordered; it has no
    parenthesised span left, so deleting the spans again changes nothing, and
    the test gives the same answer on it as on the line. *)
Theorem check_view_has_no_span_left (line : text) :
  newline ∉ line →
  sub_parens line `sublist_of` line
  ∧ span_free (sub_parens line)
  ∧ sub_parens (sub_parens line) = sub_parens line
  ∧ is_finding (sub_parens line) = is_finding line.
Proof.
  intros Hnl.
  assert (span_free (sub_parens line)) as Hfree
    by (eapply check_view_span_free; by apply check_view_complete).
  split_and!; [apply sub_parens_scan_sublist|done|by apply sub_parens_span_free|].
  unfold is_finding. cbn zeta. by rewrite sub_parens_span_free.
Qed.

Lemma check_view_has_no_span_left_witness :
  sub_parens Sample.exempt_line `sublist_of` Sample.exempt_line
  ∧ span_free (sub_parens Sample.exempt_line)
  ∧ sub_parens (sub_parens Sample.exempt_line) = sub_parens Sample.exempt_line
  ∧ is_finding (sub_parens Sample.exempt_line) = is_finding Sample.exempt_line.
Proof.
  apply (check_view_has_no_span_left Sample.exempt_line).
  intros H. vm_compute in H.
  repeat (apply elem_of_cons in H as [H|H]; [discriminate|]).
  by apply not_elem_of_nil in H.
Defined.

(** X19.  A line that has no [)], or no [(], has nothing exempted: it is
    tested as it is, and is flagged exactly when it holds a kana or a CJK
    ideograph.  So it is with a line whose parentheses are the full-width
    ones. *)
Theorem parenthesis_without_partner_exempts_nothing (line : text) :
  rparen ∉ line ∨ lparen ∉ line →
  sub_parens line = line
  ∧ (is_finding line = true ↔ ∃ c, c ∈ line ∧ (kana c ∨ cjk c)).
Proof.
  intros H.
  assert (sub_parens line = line) as E.
  { apply sub_parens_span_free.
    destruct H; [by apply no_rparen_span_free|by apply no_lparen_span_free]. }
  split; [done|]. by rewrite is_finding_spec, E.
Qed.

Lemma parenthesis_without_partner_exempts_nothing_witness :
  sub_parens Sample.fullwidth_line = Sample.fullwidth_line
  ∧ (is_finding Sample.fullwidth_line = true
     ↔ ∃ c, c ∈ Sample.fullwidth_line ∧ (kana c ∨ cjk c)).
Proof.
  apply (parenthesis_without_partner_exempts_nothing Sample.fullwidth_line).
  left. intros H. vm_compute in H.
  repeat (apply elem_of_cons in H as [H|H]; [discriminate|]).
  by apply not_elem_of_nil in H.
Defined.

(** * The corrected log that the editor saves *)

Section corrections.
Implicit Types (w : world) (t line : text) (texts : list text).

(** A save that returns has written the whole log. *)
Lemma save_translated_log_run translated_log_file texts w w1 :
  save_translated_log translated_log_file texts w = (Ok (), w1) →
  files w1 = <[translated_log_file :=
                 Text (flat_map (λ t, strip t ++ [newline]) texts)]> (files w)
  ∧ faults w1 = tail (faults w)
  ∧ journal w1 = journal w.
Proof.
  unfold save_translated_log, write_file.
  destruct (head (faults w)) as [[[|written]|]|]; intros [= <-]; done.
Qed.

Lemma flat_map_strip_lines texts :
  flat_map (λ t, strip t ++ [newline]) texts
  = flat_map (λ line, line ++ [newline]) (map strip texts).
Proof. induction texts as [|t texts IH]; [done|]. cbn [flat_map map]. by rewrite IH. Qed.

Lemma map_strip_idemp texts : map strip (map strip texts) = map strip texts.
Proof.
  induction texts as [|t texts IH]; [done|]. cbn [map]. by rewrite strip_idemp, IH.
Qed.

(** The lines read back from trimmed texts written one per line. *)
Lemma strip_lines_read_back texts :
  Forall (λ t, newline ∉ strip t) texts →
  List.filter truthy (map strip (split_lines (flat_map (λ t, strip t ++ [newline]) texts)))
  = List.filter truthy (map strip texts).
Proof.
  intros H. rewrite flat_map_strip_lines, split_lines_terminated.
  - rewrite map_app, List.filter_app, map_strip_idemp. apply app_nil_r.
  - induction H as [|t texts Ht _ IH]; by constructor.
Qed.

Lemma filter_truthy_all (ls : list text) :
  Forall (λ line, line ≠ []) ls → List.filter truthy ls = ls.
Proof.
  induction 1 as [|line ls Hne _ IH]; [done|]. cbn [List.filter].
  rewrite IH. by destruct line.
Qed.

Lemma elem_of_zip_same (l : list text) a b : (a, b) ∈ zip l l → a = b.
Proof.
  induction l as [|x l IH]; simpl; [by intros ?%not_elem_of_nil|].
  intros [[= -> ->]|H]%elem_of_cons; [done|by apply IH].
Qed.

End corrections.

(** X20.  When the editor has saved the corrected log and no trimmed
    correction holds a newline, [parse_log] reads back the trimmed
    corrections in order, without those that are blank: a correction left
    blank is dropped, and the later ones move up.  If none is blank, the log
    reads back as all the trimmed corrections. *)
Theorem saved_corrections_read_back
    (translated_log_file : string) (translated_texts : list text) (w w1 : world) :
  run (save_translated_log translated_log_file translated_texts) w = (Ok (), w1) →
  Forall (λ t, newline ∉ strip t) translated_texts →
  (run (parse_log translated_log_file) w1).1
  = Ok (List.filter truthy (map strip translated_texts))
  ∧ (Forall (λ t, strip t ≠ []) translated_texts →
     (run (parse_log translated_log_file) w1).1 = Ok (map strip translated_texts)).
Proof.
  unfold run. intros (Hfiles & _)%save_translated_log_run Hnl.
  assert ((parse_log translated_log_file w1).1
          = Ok (List.filter truthy (map strip translated_texts))) as E.
  { rewrite parse_log_run, Hfiles, lookup_insert_eq. cbn [fst].
    by rewrite strip_lines_read_back. }
  split; [done|]. intros Hne. rewrite E, filter_truthy_all; [done|].
  clear -Hne. induction Hne as [|t texts Ht _ IH]; cbn [map]; by constructor.
Qed.

Lemma saved_corrections_read_back_witness :
  (run (parse_log "language_proof_translated.log")
       (run (save_translated_log "language_proof_translated.log"
               [lit " bar "; lit "  "; lit "baz"]) Sample.unedited).2).1
  = Ok (List.filter truthy (map strip [lit " bar "; lit "  "; lit "baz"]))
  ∧ (Forall (λ t, strip t ≠ []) [lit " bar "; lit "  "; lit "baz"] →
     (run (parse_log "language_proof_translated.log")
          (run (save_translated_log "language_proof_translated.log"
                  [lit " bar "; lit "  "; lit "baz"]) Sample.unedited).2).1
     = Ok (map strip [lit " bar "; lit "  "; lit "baz"])).
Proof.
  apply (saved_corrections_read_back "language_proof_translated.log"
           [lit " bar "; lit "  "; lit "baz"] Sample.unedited).
  - vm_compute. reflexivity.
  - repeat constructor; intros H; vm_compute in H;
      repeat (apply elem_of_cons in H as [H|H]; [discriminate|]);
      by apply not_elem_of_nil in H.
Defined.

(** X21.  Corrections that stand as the findings change nothing.  The logs
    and the target being other files than [fix_script.log]: when the
    corrected log is read as the same lines as the findings log, [main]
    changes no file other than [fix_script.log] and attempts no write of the
    target; if the target holds text and there is a finding, [main] returns
    normally and reports that no changes were made. *)
Theorem unedited_corrections_change_nothing
    (proof_log translated_log target_file : string)
    (w : world) (lines : list text) :
  proof_log ≠ fix_script_log →
  translated_log ≠ fix_script_log →
  target_file ≠ fix_script_log →
  (run (parse_log proof_log) w).1 = Ok lines →
  (run (parse_log translated_log) w).1 = Ok lines →
  (∀ path, path ≠ fix_script_log →
     files (run (main proof_log translated_log target_file) w).2 !! path
     = files w !! path)
  ∧ faults (run (main proof_log translated_log target_file) w).2 = faults w
  ∧ (∀ original,
       lines ≠ [] →
       files w !! target_file = Some (Text original) →
       (run (main proof_log translated_log target_file) w).1 = Ok ()
       ∧ ∃ n, journal (run (main proof_log translated_log target_file) w).2
              = journal w ++
                [ScriptStarted; TargetFile target_file; ParsingLogs;
                 ReadingTarget target_file; StartingReplacement;
                 FoundRules n; NoChangesMade; ScriptFinished]).
Proof.
  unfold run. intros _ _ _ Hcheck Htrans.
  destruct (create_replacement_map_run proof_log translated_log w
              lines lines Hcheck Htrans) as (w' & _ & _ & _ & Hmap).
  assert (∀ d content,
    (create_replacement_map proof_log translated_log w).1 = Ok (Some d) →
    (apply_rules d content).1 = content) as Hid.
  { intros d content. rewrite Hmap.
    destruct (negb (truthy lines) || negb (truthy lines)); [done|].
    intros [= <-]. apply apply_rules_identity.
    intros old new Hin%elem_of_dict_of_pairs. by apply elem_of_zip_same in Hin. }
  split_and!.
  - intros path _.
    destruct (main_cases proof_log translated_log target_file w)
      as (r & w2 & Hr & F & G & ->).
    destruct r as [d|]; cbn zeta; [|by cbn; rewrite F].
    destruct (files w !! target_file) as [[original|]|]; [|by cbn; rewrite F..].
    rewrite decide_True by by rewrite Hid. cbn. by rewrite F.
  - destruct (main_cases proof_log translated_log target_file w)
      as (r & w2 & Hr & F & G & ->).
    destruct r as [d|]; cbn zeta; [|done].
    destruct (files w !! target_file) as [[original|]|]; [|done..].
    by rewrite decide_True by by rewrite Hid.
  - intros original Hlines Htarget.
    assert ((create_replacement_map proof_log translated_log w).1
            = Ok (Some (dict_of_pairs (zip lines lines)))) as Hd.
    { rewrite Hmap. by destruct lines. }
    rewrite (main_run _ _ _ _ _ original Hd Htarget). cbn zeta.
    rewrite decide_True by by rewrite Hid.
    split; [done|]. exists (length (dict_of_pairs (zip lines lines))).
    cbn. by rewrite <- !app_assoc.
Qed.

Lemma unedited_corrections_change_nothing_witness :
  (∀ path, path ≠ fix_script_log →
     files (run (main "language_proof.log" "language_proof_translated.log" "doc.txt")
                Sample.unedited_saved).2 !! path
     = files Sample.unedited_saved !! path)
  ∧ faults (run (main "language_proof.log" "language_proof_translated.log" "doc.txt")
                Sample.unedited_saved).2
    = faults Sample.unedited_saved
  ∧ (∀ original,
       [lit "foo"; lit "bar"] ≠ [] →
       files Sample.unedited_saved !! "doc.txt" = Some (Text original) →
       (run (main "language_proof.log" "language_proof_translated.log" "doc.txt")
            Sample.unedited_saved).1 = Ok ()
       ∧ ∃ n, journal (run (main "language_proof.log" "language_proof_translated.log"
                                 "doc.txt") Sample.unedited_saved).2
              = journal Sample.unedited_saved ++
                [ScriptStarted; TargetFile "doc.txt"; ParsingLogs;
                 ReadingTarget "doc.txt"; StartingReplacement;
                 FoundRules n; NoChangesMade; ScriptFinished]).
Proof.
  apply (unedited_corrections_change_nothing
           "language_proof.log" "language_proof_translated.log" "doc.txt"
           Sample.unedited_saved [lit "foo"; lit "bar"]).
  - discriminate.
  - discriminate.
  - discriminate.
  - vm_compute. reflexivity.
  - vm_compute. reflexivity.
Defined.
